(** * FileSharePro: the in-memory metadata store (server/storage.ts)

    A shallow embedding of [MemStorage] and of the record types of
    shared/schema.ts, followed by the properties of the store.

    Conventions of the embedding.
    - JavaScript numbers that hold ids, counters, sizes and millisecond
      timestamps are integers and are modelled by [Z].  Ids and counters
      start at 1 and 0 and move by one per call, and timestamps are clock
      readings, so they stay below 2^53, where the arithmetic of doubles
      on integers is exact.  A size is supplied by the caller and can be
      any integer-valued double: the sum of the sizes in [getStats] is
      computed with the rounding and the overflow of double addition
      ([js_add]).
    - [Map<number, File>] iterates in insertion order, and [set] on a key
      that is already present keeps the position of that key.  The map is
      therefore an association list in insertion order ([JsMap]).
    - [Array.prototype.sort] is stable (ECMAScript 2019), so its result is
      fixed by the comparator; it is modelled by a stable insertion sort.
    - The methods are [async] but contain no [await]: each body runs to
      completion on the event loop.  A method is a state transformer
      [Method A = MemStorage -> A * MemStorage].
    - [new Date()] reads the clock; the reading, in milliseconds, is an
      argument [now] of [createFile].  Nothing is assumed about the clock:
      two readings may be equal, and a later one may be smaller.
    - An [id] argument that is not an integer is the key of no record and
      behaves like an integer that is not live. *)

From Stdlib Require Import ZArith List String Ascii Bool Lia Permutation Sorted.
Import ListNotations.
Local Open Scope Z_scope.

(** ** shared/schema.ts *)

Module InsertFile.
Record t : Type := mk {
  filename : string;
  originalName : string;
  mimeType : string;
  size : Z;
  shareId : string
}.
End InsertFile.

Module File.
Record t : Type := mk {
  id : Z;
  filename : string;
  originalName : string;
  mimeType : string;
  size : Z;
  shareId : string;
  uploadedAt : Z;
  views : Z;
  downloads : Z
}.
End File.

(** ** [Map<number, V>] in insertion order *)

Module JsMap.
Section WithValue.
Context {V : Type}.

Definition t : Type := list (Z * V).

Definition empty : t := [].

Fixpoint get (k : Z) (m : t) : option V :=
  match m with
  | [] => None
  | (k', v) :: r => if k =? k' then Some v else get k r
  end.

(** [set] overwrites in place when the key is present and appends a new
    entry otherwise. *)
Fixpoint set (k : Z) (v : V) (m : t) : t :=
  match m with
  | [] => [(k, v)]
  | (k', v') :: r => if k =? k' then (k, v) :: r else (k', v') :: set k v r
  end.

Fixpoint delete (k : Z) (m : t) : t :=
  match m with
  | [] => []
  | (k', v') :: r => if k =? k' then delete k r else (k', v') :: delete k r
  end.

Definition keys (m : t) : list Z := map fst m.

Definition values (m : t) : list V := map snd m.

End WithValue.
Arguments t : clear implicits.
End JsMap.

(** ** Array helpers *)

Section ArrayHelpers.
Context {A : Type}.

(** [insert_sorted cmp x l] puts [x] in front of the first [y] with
    [cmp x y <= 0]: [x] stays ahead of the elements it compares equal to. *)
Fixpoint insert_sorted (cmp : A -> A -> Z) (x : A) (l : list A) : list A :=
  match l with
  | [] => [x]
  | y :: r => if cmp x y <=? 0 then x :: y :: r else y :: insert_sorted cmp x r
  end.

(** [Array.prototype.sort(cmp)]: a stable sort. *)
Fixpoint array_sort (cmp : A -> A -> Z) (l : list A) : list A :=
  match l with
  | [] => []
  | x :: r => insert_sorted cmp x (array_sort cmp r)
  end.

(** [Array.prototype.reduce(f, init)] *)
Definition array_reduce {B : Type} (f : B -> A -> B) (init : B) (l : list A) : B :=
  fold_left f l init.

(** [Array.prototype.find(p)] is [List.find]. *)
Definition array_find (p : A -> bool) (l : list A) : option A := find p l.

End ArrayHelpers.

(** ** server/storage.ts *)

(** The value of a sum of integer-valued doubles: an integer, or an
    infinity once the sum has overflowed. *)
Inductive jsnum : Type :=
| Finite (z : Z)
| PlusInfinity
| MinusInfinity.

(** The double nearest to the integer [z], ties to the even significand
    (IEEE 754 round-to-nearest): integers below 2^53 in magnitude are
    doubles; a larger one keeps its 53 leading bits, rounded; from 2^1024
    on the result is an infinity. *)
Definition round_double (z : Z) : jsnum :=
  let a := Z.abs z in
  if a <? 2 ^ 53 then Finite z
  else
    let e := Z.log2 a - 52 in
    let q := Z.shiftr a e in
    let r := a - Z.shiftl q e in
    let half := Z.shiftl 1 (e - 1) in
    let q' := if (half <? r) || ((r =? half) && Z.odd q) then q + 1 else q in
    let m := Z.shiftl q' e in
    if 2 ^ 1024 <=? m
    then (if 0 <? z then PlusInfinity else MinusInfinity)
    else Finite (Z.sgn z * m).

(** [sum + x] on doubles, for a running sum and an integer-valued [x]. *)
Definition js_add (sum : jsnum) (x : Z) : jsnum :=
  match sum with
  | Finite a => round_double (a + x)
  | PlusInfinity => PlusInfinity
  | MinusInfinity => MinusInfinity
  end.

Record Stats : Type := mkStats {
  totalFiles : Z;
  totalViews : Z;
  totalDownloads : Z;
  totalSize : jsnum
}.

Record MemStorage : Type := mkMemStorage {
  files : JsMap.t File.t;
  currentId : Z
}.

(** The state monad of the methods. *)
Definition Method (A : Type) : Type := MemStorage -> A * MemStorage.

Definition ret {A : Type} (a : A) : Method A := fun st => (a, st).

Definition bind {A B : Type} (m : Method A) (k : A -> Method B) : Method B :=
  fun st => let (a, st') := m st in k a st'.

Declare Scope method_scope.
Delimit Scope method_scope with method.
Notation "x <- m ;; k" := (bind m (fun x => k))
  (at level 61, m at next level, right associativity) : method_scope.
Notation "m ;; k" := (bind m (fun _ => k))
  (at level 61, right associativity) : method_scope.
Local Open Scope method_scope.

(** [this.files] read as a whole. *)
Definition this_files : Method (JsMap.t File.t) := fun st => (files st, st).

(** [this.currentId++]: the value before the increment. *)
Definition post_incr_currentId : Method Z :=
  fun st => (currentId st, mkMemStorage (files st) (currentId st + 1)).

(** [this.files.set(id, file)] *)
Definition files_set (k : Z) (f : File.t) : Method unit :=
  fun st => (tt, mkMemStorage (JsMap.set k f (files st)) (currentId st)).

(** [this.files.delete(id)] *)
Definition files_delete (k : Z) : Method unit :=
  fun st => (tt, mkMemStorage (JsMap.delete k (files st)) (currentId st)).

(** [constructor()] *)
Definition new_MemStorage : MemStorage := mkMemStorage JsMap.empty 1.

Definition createFile (now : Z) (insertFile : InsertFile.t) : Method File.t :=
  id <- post_incr_currentId ;;
  let file := File.mk id
                (InsertFile.filename insertFile)
                (InsertFile.originalName insertFile)
                (InsertFile.mimeType insertFile)
                (InsertFile.size insertFile)
                (InsertFile.shareId insertFile)
                now 0 0 in
  files_set id file ;;
  ret file.

Definition getFileByShareId (shareId : string) : Method (option File.t) :=
  m <- this_files ;;
  ret (array_find (fun file => String.eqb (File.shareId file) shareId)
                  (JsMap.values m)).

(** The comparator of [getAllFiles]. *)
Definition by_uploadedAt_desc (a b : File.t) : Z :=
  File.uploadedAt b - File.uploadedAt a.

Definition getAllFiles : Method (list File.t) :=
  m <- this_files ;;
  ret (array_sort by_uploadedAt_desc (JsMap.values m)).

Definition with_views (f : File.t) (v : Z) : File.t :=
  File.mk (File.id f) (File.filename f) (File.originalName f) (File.mimeType f)
          (File.size f) (File.shareId f) (File.uploadedAt f) v (File.downloads f).

Definition with_downloads (f : File.t) (d : Z) : File.t :=
  File.mk (File.id f) (File.filename f) (File.originalName f) (File.mimeType f)
          (File.size f) (File.shareId f) (File.uploadedAt f) (File.views f) d.

Definition incrementViews (id : Z) : Method unit :=
  m <- this_files ;;
  match JsMap.get id m with
  | Some file => files_set id (with_views file (File.views file + 1))
  | None => ret tt
  end.

Definition incrementDownloads (id : Z) : Method unit :=
  m <- this_files ;;
  match JsMap.get id m with
  | Some file => files_set id (with_downloads file (File.downloads file + 1))
  | None => ret tt
  end.

Definition deleteFile (id : Z) : Method unit := files_delete id.

Definition getStats : Method Stats :=
  m <- this_files ;;
  let allFiles := JsMap.values m in
  ret (mkStats
         (Z.of_nat (List.length allFiles))
         (array_reduce (fun sum file => sum + File.views file) 0 allFiles)
         (array_reduce (fun sum file => sum + File.downloads file) 0 allFiles)
         (array_reduce (fun sum file => js_add sum (File.size file))
                       (Finite 0) allFiles)).

(** ** Calls on the [IStorage] interface and their replies *)

Inductive call : Type :=
| CreateFile (now : Z) (insertFile : InsertFile.t)
| GetFileByShareId (shareId : string)
| GetAllFiles
| IncrementViews (id : Z)
| IncrementDownloads (id : Z)
| DeleteFile (id : Z)
| GetStats.

Inductive reply : Type :=
| RFile (f : File.t)
| RMaybeFile (o : option File.t)
| RFiles (l : list File.t)
| RVoid
| RStats (s : Stats).

Definition perform (c : call) : Method reply :=
  match c with
  | CreateFile now d => f <- createFile now d ;; ret (RFile f)
  | GetFileByShareId s => o <- getFileByShareId s ;; ret (RMaybeFile o)
  | GetAllFiles => l <- getAllFiles ;; ret (RFiles l)
  | IncrementViews id => incrementViews id ;; ret RVoid
  | IncrementDownloads id => incrementDownloads id ;; ret RVoid
  | DeleteFile id => deleteFile id ;; ret RVoid
  | GetStats => s <- getStats ;; ret (RStats s)
  end.

(** Running a sequence of calls: the replies in order, and the final state. *)
Fixpoint perform_all (cs : list call) : Method (list reply) :=
  match cs with
  | [] => ret []
  | c :: r => x <- perform c ;; xs <- perform_all r ;; ret (x :: xs)
  end.

Definition exec (c : call) (st : MemStorage) : MemStorage := snd (perform c st).

Definition exec_all (cs : list call) (st : MemStorage) : MemStorage :=
  snd (perform_all cs st).

(** The ids handed out by the [createFile] calls of a run, in call order. *)
Fixpoint created_ids (rs : list reply) : list Z :=
  match rs with
  | [] => []
  | RFile f :: r => File.id f :: created_ids r
  | _ :: r => created_ids r
  end.

(** A state the store can be in: some sequence of calls on a fresh instance. *)
Definition reachable (st : MemStorage) : Prop :=
  exists cs, st = exec_all cs new_MemStorage.

(** The class invariant: keys are distinct, each record sits under its own
    id, every key is below the id counter, and no counter is negative. *)
Definition record_ok (bound : Z) (kv : Z * File.t) : Prop :=
  File.id (snd kv) = fst kv /\ fst kv < bound /\
  0 <= File.views (snd kv) /\ 0 <= File.downloads (snd kv).

Definition invariant (st : MemStorage) : Prop :=
  NoDup (JsMap.keys (files st)) /\
  Forall (record_ok (currentId st)) (files st).

(** Exact sum of a field over a list of records. *)
Definition sum_of (field : File.t -> Z) (l : list File.t) : Z :=
  fold_right (fun f acc => field f + acc) 0 l.

(** The order of [getAllFiles]: [a] may stand before [b]. *)
Definition newer_or_equal (a b : File.t) : Prop :=
  File.uploadedAt b <= File.uploadedAt a.

(** The records stamped with the timestamp [t]. *)
Definition uploaded_at (t : Z) (f : File.t) : bool := File.uploadedAt f =? t.

(** The live records, in insertion order. *)
Definition live (st : MemStorage) : list File.t := JsMap.values (files st).

(** How often a run calls [incrementViews] / [incrementDownloads] on [id]. *)
Fixpoint count_views (id : Z) (cs : list call) : Z :=
  match cs with
  | [] => 0
  | IncrementViews k :: r => (if k =? id then 1 else 0) + count_views id r
  | _ :: r => count_views id r
  end.

Fixpoint count_downloads (id : Z) (cs : list call) : Z :=
  match cs with
  | [] => 0
  | IncrementDownloads k :: r => (if k =? id then 1 else 0) + count_downloads id r
  | _ :: r => count_downloads id r
  end.

(** A run that never deletes [id]. *)
Fixpoint never_deletes (id : Z) (cs : list call) : bool :=
  match cs with
  | [] => true
  | DeleteFile k :: r => negb (k =? id) && never_deletes id r
  | _ :: r => never_deletes id r
  end.

(** [a] occurs somewhere before [b] in [l]. *)
Definition stands_before (a b : File.t) (l : list File.t) : Prop :=
  exists l1 l2 l3, l = l1 ++ a :: l2 ++ b :: l3.

(** Two readings of how [getAllFiles] orders records with equal timestamps:
    the one inserted later first, or the one inserted earlier first. *)
Definition ties_newest_first (st : MemStorage) : Prop :=
  forall a b,
    stands_before a b (live st) ->
    File.uploadedAt a = File.uploadedAt b ->
    stands_before b a (fst (getAllFiles st)).

Definition ties_oldest_first (st : MemStorage) : Prop :=
  forall a b,
    stands_before a b (live st) ->
    File.uploadedAt a = File.uploadedAt b ->
    stands_before a b (fst (getAllFiles st)).

(** Looking up the [shareId] of record [id] after deleting it finds nothing. *)
Definition lookup_fails_after_delete (st : MemStorage) (id : Z) : Prop :=
  forall f,
    JsMap.get id (files st) = Some f ->
    fst (getFileByShareId (File.shareId f) (snd (deleteFile id st))) = None.

(** Sample data: the upload of the scenario in the specification, under a
    chosen share id. *)
Definition photo (shareId : string) : InsertFile.t :=
  InsertFile.mk "f1.png" "photo.png" "image/png" 2048 shareId.

Definition stored_photo (id : Z) (shareId : string) (t v d : Z) : File.t :=
  File.mk id "f1.png" "photo.png" "image/png" 2048 shareId t v d.

(** The fields of a record that no method writes after [createFile]. *)
Definition same_upload (f f' : File.t) : Prop :=
  File.id f' = File.id f /\
  File.filename f' = File.filename f /\
  File.originalName f' = File.originalName f /\
  File.mimeType f' = File.mimeType f /\
  File.size f' = File.size f /\
  File.shareId f' = File.shareId f /\
  File.uploadedAt f' = File.uploadedAt f.

(** A record with its two counters blanked. *)
Definition strip_counters (f : File.t) : File.t :=
  with_views (with_downloads f 0) 0.

(** [n] consecutive integers from [start] on. *)
Fixpoint count_up (start : Z) (n : nat) : list Z :=
  match n with
  | O => []
  | S n' => start :: count_up (start + 1) n'
  end.

(** The number of [createFile] calls in a run. *)
Fixpoint creations (cs : list call) : nat :=
  match cs with
  | [] => O
  | CreateFile _ _ :: r => S (creations r)
  | _ :: r => creations r
  end.

(** The value under the first entry of key [k] replaced by its image under
    [g]; what [get] followed by [set] on the same key amounts to. *)
Fixpoint update_entry (k : Z) (g : File.t -> File.t) (m : JsMap.t File.t)
  : JsMap.t File.t :=
  match m with
  | [] => []
  | (k', v) :: r =>
      if k =? k' then (k', g v) :: r else (k', v) :: update_entry k g r
  end.

(** Along a run, every [createFile] comes with a share id that no live
    record carries at that moment (what the caller's [nanoid] is trusted to
    provide). *)
Fixpoint fresh_shareIds (cs : list call) (st : MemStorage) : Prop :=
  match cs with
  | [] => True
  | c :: r =>
      match c with
      | CreateFile _ d => ~ In (InsertFile.shareId d) (map File.shareId (live st))
      | _ => True
      end /\ fresh_shareIds r (exec c st)
  end.

(** ** server/routes.ts

    The request handlers.  Beside the store they see the uploads directory,
    which is modelled by the list of the file names it holds: multer names
    the stored files itself, so [path.join(uploadsDir, name)] denotes the
    entry [name] of that directory.  A handler is a function from the state
    of the server to a response and the next state.  [nanoid(10)] and
    [new Date()] are inputs of the upload request, and [parseInt] of the
    path parameter is an input of the delete request ([None] for [NaN]). *)

Module MulterFile.
Record t : Type := mk {
  filename : string;
  originalname : string;
  mimetype : string;
  size : Z
}.
End MulterFile.

Record Server : Type := mkServer {
  storage : MemStorage;
  uploads : list string
}.

Inductive payload : Type :=
| JsonFile (f : File.t)
| JsonFiles (l : list File.t)
| JsonStats (s : Stats)
| JsonMessage (message : string)
| JsonSuccess
| SentFile (name : string) (headers : list (string * string)).

Record response : Type := mkResponse {
  status : Z;
  body : payload
}.

(** [fs.existsSync] and [fs.unlinkSync] on the uploads directory. *)
Definition existsSync (name : string) (dir : list string) : bool :=
  existsb (String.eqb name) dir.

Definition unlinkSync (name : string) (dir : list string) : list string :=
  filter (fun n => negb (String.eqb name n)) dir.

(** The entry of the map at which [getFileByShareId] finds its record.  The
    handlers hold on to the object of that entry while [incrementViews]
    updates it, so what they send is the entry's content at that moment. *)
Definition entry_by_shareId (shareId : string) (m : JsMap.t File.t)
  : option (Z * File.t) :=
  find (fun kv => String.eqb (File.shareId (snd kv)) shareId) m.

Definition object_now (k : Z) (file : File.t) (st : MemStorage) : File.t :=
  match JsMap.get k (files st) with
  | Some f => f
  | None => file
  end.

Definition double_quote : string := String "034"%char EmptyString.

(** [app.get("/api/files")] *)
Definition get_files (srv : Server) : response * Server :=
  let (l, st) := getAllFiles (storage srv) in
  (mkResponse 200 (JsonFiles l), mkServer st (uploads srv)).

(** [app.post("/api/upload")], after [upload.single('file')] has stored the
    file, if the request carried one.  [accepts] is the verdict of
    [insertFileSchema.parse], which returns its argument or throws. *)
Definition post_upload (accepts : InsertFile.t -> bool) (now : Z) (shareId : string)
    (req_file : option MulterFile.t) (srv : Server) : response * Server :=
  match req_file with
  | None => (mkResponse 400 (JsonMessage "No file uploaded"), srv)
  | Some f =>
      let fileData := InsertFile.mk (MulterFile.filename f)
                                    (MulterFile.originalname f)
                                    (MulterFile.mimetype f)
                                    (MulterFile.size f)
                                    shareId in
      if accepts fileData then
        let (file, st) := createFile now fileData (storage srv) in
        (mkResponse 200 (JsonFile file), mkServer st (uploads srv))
      else (mkResponse 500 (JsonMessage "Failed to upload file"), srv)
  end.

(** [app.get("/api/files/:shareId")] *)
Definition get_file (shareId : string) (srv : Server) : response * Server :=
  match entry_by_shareId shareId (files (storage srv)) with
  | None => (mkResponse 404 (JsonMessage "File not found"), srv)
  | Some (k, file) =>
      let (_, st) := incrementViews (File.id file) (storage srv) in
      (mkResponse 200 (JsonFile (object_now k file st)), mkServer st (uploads srv))
  end.

(** What [res.setHeader] accepts as a header value: node refuses, by
    throwing, a value with a character outside tab, U+0020..U+007E and
    U+0080..U+00FF.  On the bytes of a string these are the bytes 9,
    32..126 and 128..195 (a character above U+00FF starts with a byte
    from 196 on). *)
Definition header_byte_ok (c : ascii) : bool :=
  let n := N_of_ascii c in
  ((n =? 9) || ((32 <=? n) && (n <=? 126)) || ((128 <=? n) && (n <=? 195)))%N.

Fixpoint header_value_ok (s : string) : bool :=
  match s with
  | EmptyString => true
  | String c r => header_byte_ok c && header_value_ok r
  end.

(** [app.get("/api/download/:shareId")].  The two [res.setHeader] calls
    come after [incrementDownloads]; when one of them throws, the [catch]
    answers 500 and the download stays counted.  The transfer started by
    [res.sendFile] is taken to succeed. *)
Definition get_download (shareId : string) (srv : Server) : response * Server :=
  match entry_by_shareId shareId (files (storage srv)) with
  | None => (mkResponse 404 (JsonMessage "File not found"), srv)
  | Some (k, file) =>
      if existsSync (File.filename file) (uploads srv) then
        let (_, st) := incrementDownloads (File.id file) (storage srv) in
        if header_value_ok (File.originalName file)
           && header_value_ok (File.mimeType file)
        then
          (mkResponse 200
             (SentFile (File.filename file)
                [("Content-Disposition",
                  "attachment; filename=" ++ double_quote ++ File.originalName file
                                           ++ double_quote);
                 ("Content-Type", File.mimeType file)]%string),
           mkServer st (uploads srv))
        else
          (mkResponse 500 (JsonMessage "Failed to download file"),
           mkServer st (uploads srv))
      else (mkResponse 404 (JsonMessage "File not found on disk"), srv)
  end.

(** [app.get("/api/preview/:shareId")] *)
Definition get_preview (shareId : string) (srv : Server) : response * Server :=
  match entry_by_shareId shareId (files (storage srv)) with
  | None => (mkResponse 404 (JsonMessage "File not found"), srv)
  | Some (k, file) =>
      if existsSync (File.filename file) (uploads srv) then
        if header_value_ok (File.mimeType file) then
          (mkResponse 200
             (SentFile (File.filename file)
                       [("Content-Type", File.mimeType file)]%string),
           srv)
        else (mkResponse 500 (JsonMessage "Failed to preview file"), srv)
      else (mkResponse 404 (JsonMessage "File not found on disk"), srv)
  end.

(** [app.get("/api/admin/stats")] *)
Definition get_admin_stats (srv : Server) : response * Server :=
  let (s, st) := getStats (storage srv) in
  (mkResponse 200 (JsonStats s), mkServer st (uploads srv)).

(** [app.delete("/api/admin/files/:id")] *)
Definition delete_admin_file (id : option Z) (srv : Server) : response * Server :=
  let (all, st) := getAllFiles (storage srv) in
  let found :=
    match id with
    | Some i => array_find (fun f => File.id f =? i) all
    | None => None
    end in
  match found, id with
  | Some file, Some i =>
      let dir := if existsSync (File.filename file) (uploads srv)
                 then unlinkSync (File.filename file) (uploads srv)
                 else uploads srv in
      let (_, st') := deleteFile i st in
      (mkResponse 200 JsonSuccess, mkServer st' dir)
  | _, _ => (mkResponse 200 JsonSuccess, mkServer st (uploads srv))
  end.

(** The requests the server answers. *)
Inductive request : Type :=
| GetFiles
| PostUpload (now : Z) (shareId : string) (req_file : option MulterFile.t)
| GetFile (shareId : string)
| GetDownload (shareId : string)
| GetPreview (shareId : string)
| GetAdminStats
| DeleteAdminFile (id : option Z).

(** One request: multer's disk storage writes the uploaded file into the
    uploads directory before the upload handler runs.  An upload that multer
    itself refuses (file filter, size limit) does not reach the handler and
    is not among the requests. *)
Definition serve (accepts : InsertFile.t -> bool) (r : request) (srv : Server)
  : response * Server :=
  match r with
  | GetFiles => get_files srv
  | PostUpload now shareId req_file =>
      let dir := match req_file with
                 | Some f => MulterFile.filename f :: uploads srv
                 | None => uploads srv
                 end in
      post_upload accepts now shareId req_file (mkServer (storage srv) dir)
  | GetFile s => get_file s srv
  | GetDownload s => get_download s srv
  | GetPreview s => get_preview s srv
  | GetAdminStats => get_admin_stats srv
  | DeleteAdminFile id => delete_admin_file id srv
  end.

Fixpoint serve_all (accepts : InsertFile.t -> bool) (rs : list request) (srv : Server)
  : list response * Server :=
  match rs with
  | [] => ([], srv)
  | r :: rest =>
      let (x, srv1) := serve accepts r srv in
      let (xs, srv2) := serve_all accepts rest srv1 in
      (x :: xs, srv2)
  end.

(** The server at start-up: [new MemStorage()] and whatever the uploads
    directory holds. *)
Definition new_Server (dir : list string) : Server := mkServer new_MemStorage dir.

(** Every live record has its file in the uploads directory, and no two
    live records name the same file. *)
Definition blobs_present (srv : Server) : Prop :=
  Forall (fun f => In (File.filename f) (uploads srv)) (live (storage srv)).

Definition blobs_distinct (srv : Server) : Prop :=
  NoDup (map File.filename (live (storage srv))).

(** Along a run, every upload comes with a file name that no live record
    uses at that moment. *)
Fixpoint fresh_names (accepts : InsertFile.t -> bool) (rs : list request) (srv : Server)
  : Prop :=
  match rs with
  | [] => True
  | r :: rest =>
      match r with
      | PostUpload _ _ (Some f) =>
          ~ In (MulterFile.filename f) (map File.filename (live (storage srv)))
      | _ => True
      end /\ fresh_names accepts rest (snd (serve accepts r srv))
  end.

(** The requests that neither upload nor delete. *)
Definition is_get (r : request) : bool :=
  match r with
  | PostUpload _ _ _ | DeleteAdminFile _ => false
  | _ => true
  end.

(** What [post_upload] hands to [createFile]. *)
Definition draft_of (f : MulterFile.t) (shareId : string) : InsertFile.t :=
  InsertFile.mk (MulterFile.filename f) (MulterFile.originalname f)
                (MulterFile.mimetype f) (MulterFile.size f) shareId.

(** The headers of a download. *)
Definition download_headers (file : File.t) : list (string * string) :=
  [("Content-Disposition",
    "attachment; filename=" ++ double_quote ++ File.originalName file ++ double_quote);
   ("Content-Type", File.mimeType file)]%string.

(** ** The client's file utilities

    [formatFileSize] works on floating-point logarithms and is not modelled;
    [validateFile] takes what it returns for the size limit as an argument.
    A browser [File] is seen through the two properties that are read. *)

Definition MAX_SIZE : Z := 100 * 1024 * 1024.

Definition IMAGES : list string :=
  ["image/jpeg"; "image/png"; "image/gif"; "image/webp"; "image/svg+xml"]%string.

Definition DOCUMENTS : list string :=
  ["application/pdf"; "text/plain"; "application/msword";
   "application/vnd.openxmlformats-officedocument.wordprocessingml.document"]%string.

Definition ARCHIVES : list string :=
  ["application/zip"; "application/x-rar-compressed";
   "application/x-7z-compressed"]%string.

Definition VIDEOS : list string :=
  ["video/mp4"; "video/webm"; "video/quicktime"]%string.

Definition AUDIO : list string :=
  ["audio/mpeg"; "audio/wav"; "audio/ogg"]%string.

(** [Array.prototype.includes] on an array of strings. *)
Definition includes (l : list string) (x : string) : bool :=
  existsb (String.eqb x) l.

Definition getFileIcon (mimeType : string) : string :=
  if includes IMAGES mimeType then "🖼️"
  else if includes DOCUMENTS mimeType then "📄"
  else if includes ARCHIVES mimeType then "📦"
  else if includes VIDEOS mimeType then "🎥"
  else if includes AUDIO mimeType then "🎵"
  else "📁".

Definition getFileCategory (mimeType : string) : string :=
  if includes IMAGES mimeType then "Image"
  else if includes DOCUMENTS mimeType then "Document"
  else if includes ARCHIVES mimeType then "Archive"
  else if includes VIDEOS mimeType then "Video"
  else if includes AUDIO mimeType then "Audio"
  else "Other".

Record Validation : Type := mkValidation {
  isValid : bool;
  error : option string
}.

(** [Object.values(SUPPORTED_FILE_TYPES).flat()] *)
Definition allSupportedTypes : list string :=
  IMAGES ++ DOCUMENTS ++ ARCHIVES ++ VIDEOS ++ AUDIO.

Definition validateFile (limit_text : string) (file_size : Z) (file_type : string)
  : Validation :=
  if file_size >? MAX_SIZE then
    mkValidation false (Some ("File size exceeds " ++ limit_text ++ " limit")%string)
  else if negb (includes allSupportedTypes file_type) then
    mkValidation false (Some ("File type " ++ file_type ++ " is not supported")%string)
  else mkValidation true None.

Definition isPreviewable (mimeType : string) : bool :=
  includes IMAGES mimeType
  || String.eqb mimeType "application/pdf"
  || String.eqb mimeType "text/plain".

(** [sanitizeFilename].  A string is its sequence of bytes; a character
    outside ASCII is one or more bytes, none of them in the safe class, and
    the runs of underscores they turn into are collapsed by the second
    replacement, so the result is the one the source computes on UTF-16
    code units.  After the first replacement only ASCII is left, on which
    [toLowerCase] maps [A-Z] to [a-z] and nothing else. *)
Definition in_range (lo hi : N) (c : ascii) : bool :=
  (lo <=? N_of_ascii c)%N && (N_of_ascii c <=? hi)%N.

Definition is_upper (c : ascii) : bool := in_range 65 90 c.

(** The class [[a-zA-Z0-9._-]]. *)
Definition is_safe_char (c : ascii) : bool :=
  in_range 97 122 c || is_upper c || in_range 48 57 c
  || Ascii.eqb c "." || Ascii.eqb c "_" || Ascii.eqb c "-".

(** The class [[a-z0-9._-]]. *)
Definition is_plain_char (c : ascii) : bool :=
  is_safe_char c && negb (is_upper c).

Definition is_underscore (c : ascii) : bool := Ascii.eqb c "_".

Definition starts_with_underscore (s : string) : bool :=
  match s with
  | String c _ => is_underscore c
  | EmptyString => false
  end.

(** [.replace(/[^a-zA-Z0-9._-]/g, '_')] *)
Fixpoint replace_unsafe (s : string) : string :=
  match s with
  | EmptyString => EmptyString
  | String c r => String (if is_safe_char c then c else "_"%char) (replace_unsafe r)
  end.

(** [.replace(/_{2,}/g, '_')]: of every run of underscores one is kept. *)
Fixpoint collapse_underscores (s : string) : string :=
  match s with
  | EmptyString => EmptyString
  | String c r =>
      if is_underscore c && starts_with_underscore r
      then collapse_underscores r
      else String c (collapse_underscores r)
  end.

Definition lower_char (c : ascii) : ascii :=
  if is_upper c then ascii_of_N (N_of_ascii c + 32) else c.

(** [.toLowerCase()] on ASCII text. *)
Fixpoint lower_ascii (s : string) : string :=
  match s with
  | EmptyString => EmptyString
  | String c r => String (lower_char c) (lower_ascii r)
  end.

Definition sanitizeFilename (filename : string) : string :=
  lower_ascii (collapse_underscores (replace_unsafe filename)).

Fixpoint string_forall (p : ascii -> bool) (s : string) : bool :=
  match s with
  | EmptyString => true
  | String c r => p c && string_forall p r
  end.

Fixpoint no_double_underscore (s : string) : bool :=
  match s with
  | EmptyString => true
  | String c r =>
      negb (is_underscore c && starts_with_underscore r) && no_double_underscore r
  end.

(** ** client/src/pages/home.tsx *)

(** [files.slice(0, 6)] *)
Definition recentFiles (files : list File.t) : list File.t := firstn 6 files.

(** ** The admin dashboard's filter

    [String.prototype.toLowerCase] follows the Unicode case tables and is an
    argument of the model. *)

(** [String.prototype.includes] and [String.prototype.startsWith] *)
Fixpoint str_includes (s sub : string) : bool :=
  String.prefix sub s ||
  match s with
  | EmptyString => false
  | String _ r => str_includes r sub
  end.

Definition startsWith (s p : string) : bool := String.prefix p s.

Definition matchesSearch (toLowerCase : string -> string) (searchTerm : string)
    (file : File.t) : bool :=
  str_includes (toLowerCase (File.originalName file)) (toLowerCase searchTerm).

Definition matchesType (filterType : string) (file : File.t) : bool :=
  String.eqb filterType "all"
  || (String.eqb filterType "images" && startsWith (File.mimeType file) "image/")
  || (String.eqb filterType "documents"
      && (str_includes (File.mimeType file) "pdf"
          || str_includes (File.mimeType file) "document"
          || str_includes (File.mimeType file) "word"))
  || (String.eqb filterType "spreadsheets"
      && (str_includes (File.mimeType file) "excel"
          || str_includes (File.mimeType file) "spreadsheet")).

Definition filteredFiles (toLowerCase : string -> string) (files : list File.t)
    (searchTerm filterType : string) : list File.t :=
  filter (fun file => matchesSearch toLowerCase searchTerm file
                      && matchesType filterType file) files.

(** The aggregates of [getStats] read as exact sums over what
    [getAllFiles] returns. *)
Definition stats_exact (st : MemStorage) : Prop :=
  let stats := fst (getStats st) in
  let all := fst (getAllFiles st) in
  totalFiles stats = Z.of_nat (List.length all) /\
  totalViews stats = sum_of File.views all /\
  totalDownloads stats = sum_of File.downloads all /\
  totalSize stats = Finite (sum_of File.size all).

(** Sizes whose sum double addition computes exactly: none negative, and
    2^53 at most in total. *)
Definition sizes_safe (l : list File.t) : Prop :=
  Forall (fun f => 0 <= File.size f) l /\ sum_of File.size l <= 2 ^ 53.

(** The sizes of a list of records added up as [getStats] does it. *)
Definition js_sum (sizes : list Z) : jsnum := fold_left js_add sizes (Finite 0).

(** Sample data: an upload of a chosen size. *)
Definition blob (shareId : string) (size : Z) : InsertFile.t :=
  InsertFile.mk "f2.bin" "data.bin" "application/octet-stream" size shareId.

(** * Properties *)

(** ** The insertion-ordered map *)

Section JsMapFacts.
Context {V : Type}.
Implicit Types (m : JsMap.t V) (k : Z) (v : V).

Lemma get_set_same k v m : JsMap.get k (JsMap.set k v m) = Some v.
Proof.
  induction m as [|[k' v'] r IH]; simpl.
  - now rewrite Z.eqb_refl.
  - destruct (k =? k') eqn:E; simpl; rewrite ?Z.eqb_refl, ?E; auto.
Qed.

Lemma get_set_other k k' v m :
  k <> k' -> JsMap.get k' (JsMap.set k v m) = JsMap.get k' m.
Proof.
  intros Hne. induction m as [|[k0 v0] r IH]; simpl.
  - destruct (k' =? k) eqn:E; auto. apply Z.eqb_eq in E. congruence.
  - destruct (k =? k0) eqn:E; simpl.
    + apply Z.eqb_eq in E. subst k0.
      destruct (k' =? k) eqn:E'; auto. apply Z.eqb_eq in E'. congruence.
    + now rewrite IH.
Qed.

Lemma get_delete_same k m : JsMap.get k (JsMap.delete k m) = None.
Proof.
  induction m as [|[k' v'] r IH]; simpl; auto.
  destruct (k =? k') eqn:E; simpl; rewrite ?E; auto.
Qed.

Lemma get_delete_other k k' m :
  k <> k' -> JsMap.get k' (JsMap.delete k m) = JsMap.get k' m.
Proof.
  intros Hne. induction m as [|[k0 v0] r IH]; simpl; auto.
  destruct (k =? k0) eqn:E; simpl.
  - apply Z.eqb_eq in E. subst k0.
    destruct (k' =? k) eqn:E'; auto. apply Z.eqb_eq in E'. congruence.
  - now rewrite IH.
Qed.

Lemma get_None_keys k m : JsMap.get k m = None <-> ~ In k (JsMap.keys m).
Proof.
  induction m as [|[k' v'] r IH]; simpl.
  - tauto.
  - destruct (k =? k') eqn:E.
    + apply Z.eqb_eq in E. subst. split; [discriminate | tauto].
    + apply Z.eqb_neq in E. rewrite IH. split.
      * intros H [H'|H']; [congruence | tauto].
      * tauto.
Qed.

Lemma get_Some_In k v m : JsMap.get k m = Some v -> In (k, v) m.
Proof.
  induction m as [|[k' v'] r IH]; simpl; [discriminate|].
  destruct (k =? k') eqn:E.
  - apply Z.eqb_eq in E. subst. intros [= ->]. now left.
  - auto.
Qed.

Lemma In_keys k v m : In (k, v) m -> In k (JsMap.keys m).
Proof. intros H. apply (in_map fst) in H. exact H. Qed.

Lemma In_get k v m :
  NoDup (JsMap.keys m) -> In (k, v) m -> JsMap.get k m = Some v.
Proof.
  induction m as [|[k' v'] r IH]; simpl; [tauto|].
  intros Hnd [H|H].
  - injection H as -> ->. now rewrite Z.eqb_refl.
  - inversion Hnd as [|? ? Hnotin Hnd']; subst.
    destruct (k =? k') eqn:E.
    + apply Z.eqb_eq in E. subst. exfalso. apply Hnotin. eapply In_keys; eauto.
    + auto.
Qed.

Lemma delete_absent k m : JsMap.get k m = None -> JsMap.delete k m = m.
Proof.
  induction m as [|[k' v'] r IH]; simpl; auto.
  destruct (k =? k'); [discriminate|]. intros H. now rewrite IH.
Qed.

Lemma In_delete k k' v m :
  In (k', v) (JsMap.delete k m) <-> In (k', v) m /\ k' <> k.
Proof.
  induction m as [|[k0 v0] r IH]; simpl; [tauto|].
  destruct (k =? k0) eqn:E.
  - apply Z.eqb_eq in E. subst k0. rewrite IH. split.
    + tauto.
    + intros [[H|H] Hne]; [congruence | tauto].
  - apply Z.eqb_neq in E. simpl. rewrite IH. split.
    + intros [H|H]; [|tauto]. injection H as <- <-. split; [now left | congruence].
    + tauto.
Qed.

Lemma NoDup_keys_delete k m :
  NoDup (JsMap.keys m) -> NoDup (JsMap.keys (JsMap.delete k m)).
Proof.
  induction m as [|[k' v'] r IH]; simpl; auto.
  intros Hnd. inversion Hnd as [|? ? Hnotin Hnd']; subst.
  destruct (k =? k'); simpl; auto.
  constructor; auto.
  intros Hin. apply Hnotin.
  unfold JsMap.keys in *. apply in_map_iff in Hin as [[k0 v0] [Hk Hin]].
  simpl in Hk. subst k0. apply In_delete in Hin. eapply In_keys. apply Hin.
Qed.

(** A key that is present keeps its place; only its value changes. *)
Lemma set_present k v v' m :
  JsMap.get k m = Some v' ->
  exists m1 m2, m = m1 ++ (k, v') :: m2 /\ JsMap.set k v m = m1 ++ (k, v) :: m2.
Proof.
  induction m as [|[k' v0] r IH]; simpl; [discriminate|].
  destruct (k =? k') eqn:E.
  - apply Z.eqb_eq in E. subst k'. intros [= ->]. now exists [], r.
  - intros H. destruct (IH H) as (m1 & m2 & -> & ->).
    now exists ((k', v0) :: m1), m2.
Qed.

(** A new key goes to the end. *)
Lemma set_absent k v m : JsMap.get k m = None -> JsMap.set k v m = m ++ [(k, v)].
Proof.
  induction m as [|[k' v'] r IH]; simpl; auto.
  destruct (k =? k'); [discriminate|]. intros H. now rewrite IH.
Qed.

Lemma keys_set_present k v v' m :
  JsMap.get k m = Some v' -> JsMap.keys (JsMap.set k v m) = JsMap.keys m.
Proof.
  intros H. destruct (set_present k v v' m H) as (m1 & m2 & -> & ->).
  unfold JsMap.keys. now rewrite !map_app.
Qed.

End JsMapFacts.

(** ** Stable sorting *)

Section SortFacts.
Context {A : Type}.
Variable cmp : A -> A -> Z.

Lemma insert_sorted_perm x l : Permutation (x :: l) (insert_sorted cmp x l).
Proof.
  induction l as [|y r IH]; simpl; auto.
  destruct (cmp x y <=? 0); auto.
  rewrite perm_swap. now constructor.
Qed.

Lemma array_sort_perm l : Permutation l (array_sort cmp l).
Proof.
  induction l as [|x r IH]; simpl; auto.
  rewrite <- insert_sorted_perm. now constructor.
Qed.

Lemma array_sort_length l : List.length (array_sort cmp l) = List.length l.
Proof. symmetry. apply Permutation_length, array_sort_perm. Qed.

Lemma array_sort_In x l : In x (array_sort cmp l) <-> In x l.
Proof.
  split; apply Permutation_in; [symmetry|]; apply array_sort_perm.
Qed.

End SortFacts.

Lemma insert_by_uploadedAt_sorted x l :
  StronglySorted newer_or_equal l ->
  StronglySorted newer_or_equal (insert_sorted by_uploadedAt_desc x l).
Proof.
  induction 1 as [|y r Hs IH Hall]; simpl.
  - repeat constructor.
  - unfold by_uploadedAt_desc at 1.
    destruct (File.uploadedAt y - File.uploadedAt x <=? 0) eqn:E.
    + apply Z.leb_le in E. constructor.
      * now constructor.
      * constructor; [unfold newer_or_equal; lia|].
        eapply Forall_impl; [|exact Hall].
        unfold newer_or_equal. intros; lia.
    + apply Z.leb_gt in E. constructor; auto.
      eapply Permutation_Forall; [apply insert_sorted_perm|].
      constructor; auto. unfold newer_or_equal. lia.
Qed.

Lemma array_sort_by_uploadedAt_sorted l :
  StronglySorted newer_or_equal (array_sort by_uploadedAt_desc l).
Proof.
  induction l; simpl; [constructor | now apply insert_by_uploadedAt_sorted].
Qed.

(** Stability: records with the same timestamp keep their relative order. *)
Lemma insert_by_uploadedAt_stable t x l :
  filter (uploaded_at t) (insert_sorted by_uploadedAt_desc x l) =
  filter (uploaded_at t) (x :: l).
Proof.
  induction l as [|y r IH]; simpl; auto.
  unfold by_uploadedAt_desc at 1.
  destruct (File.uploadedAt y - File.uploadedAt x <=? 0) eqn:E; auto.
  apply Z.leb_gt in E. simpl. rewrite IH. simpl.
  unfold uploaded_at.
  destruct (File.uploadedAt x =? t) eqn:Ex; auto.
  destruct (File.uploadedAt y =? t) eqn:Ey; auto.
  apply Z.eqb_eq in Ex, Ey. lia.
Qed.

Lemma array_sort_by_uploadedAt_stable t l :
  filter (uploaded_at t) (array_sort by_uploadedAt_desc l) =
  filter (uploaded_at t) l.
Proof.
  induction l as [|x r IH]; simpl; auto.
  rewrite insert_by_uploadedAt_stable. simpl. now rewrite IH.
Qed.

(** ** Sums *)

Lemma reduce_sum_from (field : File.t -> Z) l acc :
  array_reduce (fun sum file => sum + field file) acc l = acc + sum_of field l.
Proof.
  unfold array_reduce. revert acc.
  induction l as [|x r IH]; simpl; intros acc; [lia|].
  rewrite IH. lia.
Qed.

Lemma reduce_sum (field : File.t -> Z) l :
  array_reduce (fun sum file => sum + field file) 0 l = sum_of field l.
Proof. now rewrite reduce_sum_from. Qed.

Lemma sum_of_perm (field : File.t -> Z) l l' :
  Permutation l l' -> sum_of field l = sum_of field l'.
Proof. induction 1; simpl; lia. Qed.

Lemma sum_of_app (field : File.t -> Z) l l' :
  sum_of field (l ++ l') = sum_of field l + sum_of field l'.
Proof. induction l; simpl; lia. Qed.

(** ** The store *)

Lemma exec_all_nil st : exec_all [] st = st.
Proof. reflexivity. Qed.

Lemma exec_all_cons c cs st : exec_all (c :: cs) st = exec_all cs (exec c st).
Proof.
  unfold exec_all, exec. simpl. unfold bind.
  destruct (perform c st) as [x st1]. simpl.
  destruct (perform_all cs st1) as [xs st2]. reflexivity.
Qed.

Lemma exec_all_app cs cs' st :
  exec_all (cs ++ cs') st = exec_all cs' (exec_all cs st).
Proof.
  revert st. induction cs as [|c r IH]; intros st; simpl.
  - reflexivity.
  - now rewrite !exec_all_cons, IH.
Qed.

Lemma perform_all_cons c cs st :
  fst (perform_all (c :: cs) st) =
  fst (perform c st) :: fst (perform_all cs (exec c st)).
Proof.
  unfold exec. simpl. unfold bind.
  destruct (perform c st) as [x st1]. simpl.
  destruct (perform_all cs st1) as [xs st2]. reflexivity.
Qed.

Lemma exec_createFile now d st :
  exec (CreateFile now d) st = snd (createFile now d st).
Proof. reflexivity. Qed.

Lemma exec_incrementViews id st :
  exec (IncrementViews id) st = snd (incrementViews id st).
Proof.
  unfold exec. simpl. unfold bind. now destruct (incrementViews id st).
Qed.

Lemma exec_incrementDownloads id st :
  exec (IncrementDownloads id) st = snd (incrementDownloads id st).
Proof.
  unfold exec. simpl. unfold bind. now destruct (incrementDownloads id st).
Qed.

Lemma exec_deleteFile id st :
  exec (DeleteFile id) st = snd (deleteFile id st).
Proof. reflexivity. Qed.

Lemma exec_read c st :
  match c with
  | GetFileByShareId _ | GetAllFiles | GetStats => exec c st = st
  | _ => True
  end.
Proof. destruct c; auto; destruct st; reflexivity. Qed.

Lemma reachable_new : reachable new_MemStorage.
Proof. now exists []. Qed.

Lemma reachable_exec c st : reachable st -> reachable (exec c st).
Proof.
  intros [cs ->]. exists (cs ++ [c]).
  now rewrite exec_all_app, exec_all_cons, exec_all_nil.
Qed.

Lemma reachable_exec_all cs st : reachable st -> reachable (exec_all cs st).
Proof.
  revert st. induction cs as [|c r IH]; intros st H.
  - exact H.
  - rewrite exec_all_cons. apply IH. now apply reachable_exec.
Qed.

(** A key below the counter is the only kind the map holds, so the counter
    itself is always a fresh key. *)
Lemma invariant_fresh st : invariant st -> JsMap.get (currentId st) (files st) = None.
Proof.
  intros [_ Hall]. apply get_None_keys. intros Hin.
  apply in_map_iff in Hin as [[k v] [Hk Hin]]. simpl in Hk. subst k.
  rewrite Forall_forall in Hall. specialize (Hall _ Hin).
  unfold record_ok in Hall. simpl in Hall. lia.
Qed.

Lemma invariant_new : invariant new_MemStorage.
Proof. split; constructor. Qed.

Lemma invariant_createFile now d st :
  invariant st -> invariant (snd (createFile now d st)).
Proof.
  intros Hinv. pose proof (invariant_fresh st Hinv) as Hfresh.
  destruct Hinv as [Hnd Hall]. unfold invariant. simpl.
  rewrite (set_absent _ _ _ Hfresh). split.
  - unfold JsMap.keys. rewrite map_app. simpl.
    apply NoDup_app_remove_l with (l := []). simpl.
    apply Permutation_NoDup with (l := currentId st :: map fst (files st)).
    + apply Permutation_cons_append.
    + constructor; auto. now apply get_None_keys.
  - apply Forall_app. split.
    + eapply Forall_impl; [|exact Hall]. unfold record_ok. simpl. intros [k v]. simpl. lia.
    + repeat constructor; simpl; lia.
Qed.

Lemma invariant_set_present k f f' st :
  invariant st ->
  JsMap.get k (files st) = Some f ->
  File.id f' = File.id f ->
  File.views f <= File.views f' ->
  File.downloads f <= File.downloads f' ->
  invariant (mkMemStorage (JsMap.set k f' (files st)) (currentId st)).
Proof.
  intros [Hnd Hall] Hget Hid Hv Hd. unfold invariant. simpl.
  rewrite (keys_set_present _ _ _ _ Hget). split; auto.
  destruct (set_present k f' f _ Hget) as (m1 & m2 & Hm & ->).
  rewrite Hm in Hall. apply Forall_app in Hall as [H1 H2].
  inversion H2 as [|? ? Hk H2']; subst. unfold record_ok in Hk. simpl in Hk.
  destruct Hk as (Hk1 & Hk2 & Hk3 & Hk4).
  apply Forall_app. split; auto. constructor; auto.
  unfold record_ok. simpl. repeat split; solve [congruence | lia].
Qed.

Lemma invariant_incrementViews id st :
  invariant st -> invariant (snd (incrementViews id st)).
Proof.
  intros Hinv. unfold incrementViews, bind, this_files.
  destruct (JsMap.get id (files st)) as [f|] eqn:E; simpl; auto.
  apply invariant_set_present with (f := f); simpl; auto; lia.
Qed.

Lemma invariant_incrementDownloads id st :
  invariant st -> invariant (snd (incrementDownloads id st)).
Proof.
  intros Hinv. unfold incrementDownloads, bind, this_files.
  destruct (JsMap.get id (files st)) as [f|] eqn:E; simpl; auto.
  apply invariant_set_present with (f := f); simpl; auto; lia.
Qed.

Lemma invariant_deleteFile id st :
  invariant st -> invariant (snd (deleteFile id st)).
Proof.
  intros [Hnd Hall]. unfold invariant. simpl. split.
  - now apply NoDup_keys_delete.
  - rewrite Forall_forall in *. intros [k v] Hin.
    apply In_delete in Hin as [Hin _]. now apply Hall.
Qed.

Lemma invariant_exec c st : invariant st -> invariant (exec c st).
Proof.
  intros Hinv. destruct c.
  - rewrite exec_createFile. now apply invariant_createFile.
  - now rewrite (exec_read (GetFileByShareId shareId)).
  - now rewrite (exec_read GetAllFiles).
  - rewrite exec_incrementViews. now apply invariant_incrementViews.
  - rewrite exec_incrementDownloads. now apply invariant_incrementDownloads.
  - rewrite exec_deleteFile. now apply invariant_deleteFile.
  - now rewrite (exec_read GetStats).
Qed.

Lemma invariant_exec_all cs st : invariant st -> invariant (exec_all cs st).
Proof.
  revert st. induction cs as [|c r IH]; intros st H.
  - exact H.
  - rewrite exec_all_cons. apply IH. now apply invariant_exec.
Qed.

Lemma reachable_invariant st : reachable st -> invariant st.
Proof. intros [cs ->]. apply invariant_exec_all, invariant_new. Qed.

Lemma currentId_exec c st :
  currentId (exec c st) =
  match c with CreateFile _ _ => currentId st + 1 | _ => currentId st end.
Proof.
  destruct c; try reflexivity.
  - rewrite exec_incrementViews. unfold incrementViews, bind, this_files.
    now destruct (JsMap.get id (files st)).
  - rewrite exec_incrementDownloads. unfold incrementDownloads, bind, this_files.
    now destruct (JsMap.get id (files st)).
Qed.

Lemma currentId_exec_le c st : currentId st <= currentId (exec c st).
Proof. rewrite currentId_exec. destruct c; lia. Qed.

Lemma created_ids_cons c cs st :
  created_ids (fst (perform_all (c :: cs) st)) =
  match c with
  | CreateFile _ _ => currentId st :: created_ids (fst (perform_all cs (exec c st)))
  | _ => created_ids (fst (perform_all cs (exec c st)))
  end.
Proof.
  rewrite perform_all_cons. destruct c; simpl; try reflexivity.
  - unfold bind. now destruct (incrementViews id st).
  - unfold bind. now destruct (incrementDownloads id st).
Qed.

(** Every id handed out by a run is at least the counter the run starts with,
    and the ids come out in increasing order. *)
Lemma created_ids_increasing cs : forall st,
  Forall (fun i => currentId st <= i) (created_ids (fst (perform_all cs st))) /\
  StronglySorted Z.lt (created_ids (fst (perform_all cs st))).
Proof.
  induction cs as [|c r IH]; intros st.
  - split; constructor.
  - rewrite created_ids_cons.
    destruct (IH (exec c st)) as [Hlow Hsorted].
    pose proof (currentId_exec c st) as Hc.
    destruct c; rewrite Hc in Hlow; try (split; assumption).
    split.
    + constructor; [lia|]. eapply Forall_impl; [|exact Hlow]. simpl. intros; lia.
    + constructor; auto. eapply Forall_impl; [|exact Hlow]. simpl. intros; lia.
Qed.

Lemma StronglySorted_lt_NoDup (l : list Z) : StronglySorted Z.lt l -> NoDup l.
Proof.
  induction 1 as [|x r Hs IH Hall]; constructor; auto.
  intros Hin. rewrite Forall_forall in Hall. specialize (Hall _ Hin). lia.
Qed.

(** ** The claims *)

Lemma delete_present {V : Type} k (v : V) (m : JsMap.t V) :
  NoDup (JsMap.keys m) ->
  JsMap.get k m = Some v ->
  exists m1 m2, m = m1 ++ (k, v) :: m2 /\ JsMap.delete k m = m1 ++ m2.
Proof.
  induction m as [|[k' v'] r IH]; simpl; [discriminate|].
  intros Hnd Hget. inversion Hnd as [|? ? Hnotin Hnd']; subst.
  destruct (k =? k') eqn:E.
  - apply Z.eqb_eq in E. subst k'. injection Hget as ->.
    exists [], r. split; auto. simpl. apply delete_absent.
    now apply get_None_keys.
  - destruct (IH Hnd' Hget) as (m1 & m2 & -> & ->).
    now exists ((k', v') :: m1), m2.
Qed.

Lemma reduce_js_sum (l : list File.t) (acc : jsnum) :
  array_reduce (fun sum file => js_add sum (File.size file)) acc l =
  fold_left js_add (map File.size l) acc.
Proof.
  unfold array_reduce. revert acc. induction l as [|x r IH]; simpl; auto.
Qed.

Lemma getStats_sums st :
  fst (getStats st) =
  mkStats (Z.of_nat (List.length (live st)))
          (sum_of File.views (live st))
          (sum_of File.downloads (live st))
          (js_sum (map File.size (live st))).
Proof.
  unfold getStats, bind, this_files, ret, live, js_sum. simpl.
  now rewrite !reduce_sum, reduce_js_sum.
Qed.

(** Up to 2^53 in magnitude an integer is a double. *)
Lemma round_double_exact z :
  - 2 ^ 53 <= z <= 2 ^ 53 -> round_double z = Finite z.
Proof.
  intros H. unfold round_double.
  destruct (Z.abs z <? 2 ^ 53) eqn:E; [reflexivity|].
  apply Z.ltb_ge in E. change (2 ^ 53) with 9007199254740992 in *.
  assert (Hz : z = 9007199254740992 \/ z = - 9007199254740992) by lia.
  destruct Hz as [-> | ->]; reflexivity.
Qed.

Example round_double_samples :
  round_double (2 ^ 53 + 1) = Finite (2 ^ 53) /\
  round_double (2 ^ 53 + 2) = Finite (2 ^ 53 + 2) /\
  round_double (2 ^ 53 + 3) = Finite (2 ^ 53 + 4) /\
  round_double (- (2 ^ 53 + 3)) = Finite (- (2 ^ 53 + 4)) /\
  round_double ((2 ^ 53 - 1) * 2 ^ 971) = Finite ((2 ^ 53 - 1) * 2 ^ 971) /\
  round_double ((2 ^ 53 - 1) * 2 ^ 971 + 2 ^ 970) = PlusInfinity /\
  js_add PlusInfinity (- 5) = PlusInfinity.
Proof. repeat split; vm_compute; reflexivity. Qed.

Lemma js_sum_exact_from (l : list File.t) : forall acc,
  0 <= acc ->
  Forall (fun f => 0 <= File.size f) l ->
  acc + sum_of File.size l <= 2 ^ 53 ->
  fold_left js_add (map File.size l) (Finite acc) = Finite (acc + sum_of File.size l).
Proof.
  induction l as [|x r IH]; intros acc Hacc Hall Hsum; simpl in *.
  - f_equal. lia.
  - inversion Hall as [|? ? Hx Hr]; subst.
    assert (Hs : 0 <= sum_of File.size r).
    { clear - Hr. induction Hr; simpl; lia. }
    rewrite round_double_exact by (change (2 ^ 53) with 9007199254740992 in *; lia).
    rewrite IH; auto; try lia. f_equal. lia.
Qed.

Lemma js_sum_exact (l : list File.t) :
  sizes_safe l -> js_sum (map File.size l) = Finite (sum_of File.size l).
Proof.
  intros [Hall Hsum]. unfold js_sum.
  rewrite js_sum_exact_from; auto; try lia.
Qed.

Lemma js_sum_snoc (l : list Z) (x : Z) : js_sum (l ++ [x]) = js_add (js_sum l) x.
Proof. unfold js_sum. now rewrite fold_left_app. Qed.

Lemma sizes_safe_remove (l1 l2 : list File.t) f :
  sizes_safe (l1 ++ f :: l2) -> sizes_safe (l1 ++ l2).
Proof.
  intros [Hall Hsum]. apply Forall_app in Hall as [H1 H2].
  inversion H2 as [|? ? Hf H2']; subst. split.
  - apply Forall_app. now split.
  - rewrite sum_of_app in *. simpl in Hsum. lia.
Qed.

Lemma live_createFile now d st :
  invariant st ->
  live (snd (createFile now d st)) = live st ++ [fst (createFile now d st)].
Proof.
  intros Hinv. unfold live. simpl.
  rewrite (set_absent _ _ _ (invariant_fresh st Hinv)).
  unfold JsMap.values. now rewrite map_app.
Qed.

Lemma live_deleteFile_present id f st :
  invariant st ->
  JsMap.get id (files st) = Some f ->
  exists l1 l2, live st = l1 ++ f :: l2 /\ live (snd (deleteFile id st)) = l1 ++ l2.
Proof.
  intros [Hnd _] Hget.
  destruct (delete_present id f _ Hnd Hget) as (m1 & m2 & Hm & Hd).
  exists (JsMap.values m1), (JsMap.values m2). unfold live. simpl.
  rewrite Hd, Hm. unfold JsMap.values. now rewrite !map_app.
Qed.

(** Three uploads of 2^53 bytes, 1 byte and 1 byte: the running sum of
    [getStats] stays at 2^53, the nearest double, at both later additions,
    while the sizes add up to 2^53 + 2. *)
Lemma C1_counterexample :
  let st := exec_all [CreateFile 1000 (blob "aaa" 9007199254740992);
                      CreateFile 2000 (blob "bbb" 1);
                      CreateFile 3000 (blob "ccc" 1)] new_MemStorage in
  reachable st /\
  totalSize (fst (getStats st)) = Finite 9007199254740992 /\
  sum_of File.size (fst (getAllFiles st)) = 9007199254740994 /\
  ~ stats_exact st.
Proof.
  cbv zeta. split; [eexists; reflexivity|].
  split; [reflexivity|]. split; [reflexivity|].
  intros (_ & _ & _ & H). discriminate H.
Qed.

(** C1. In every state of the store, and so after any run of calls that
    came before, [getStats] is computed from the records that [getAllFiles]
    returns at that moment: [totalFiles] is their number, [totalViews] and
    [totalDownloads] are the exact sums of their [views] and [downloads],
    and [totalSize] is their sizes added in insertion order as doubles,
    which is the exact sum of the sizes when no size is negative and the
    sum is at most 2^53.  In a reachable state the next [getStats] shows a
    [createFile] as one more file and the size of the draft added to
    [totalSize]; and, the sizes being safe, it shows a [deleteFile] of a
    live record as one file less and the sums less the fields of that
    record. *)
Theorem C1_getStats_aggregates :
  (forall (st : MemStorage) (cs : list call),
      let now_st := exec_all cs st in
      let stats := fst (getStats now_st) in
      let all := fst (getAllFiles now_st) in
      totalFiles stats = Z.of_nat (List.length all) /\
      totalViews stats = sum_of File.views all /\
      totalDownloads stats = sum_of File.downloads all /\
      totalSize stats = js_sum (map File.size (live now_st)) /\
      (sizes_safe (live now_st) ->
       totalSize stats = Finite (sum_of File.size all))) /\
  (forall (st : MemStorage) (now : Z) (d : InsertFile.t),
      reachable st ->
      let before := fst (getStats st) in
      fst (getStats (snd (createFile now d st))) =
      mkStats (totalFiles before + 1) (totalViews before)
              (totalDownloads before)
              (js_add (totalSize before) (InsertFile.size d))) /\
  (forall (st : MemStorage) (id : Z) (f : File.t),
      reachable st ->
      JsMap.get id (files st) = Some f ->
      sizes_safe (live st) ->
      let before := fst (getStats st) in
      fst (getStats (snd (deleteFile id st))) =
      mkStats (totalFiles before - 1)
              (totalViews before - File.views f)
              (totalDownloads before - File.downloads f)
              (Finite (sum_of File.size (live st) - File.size f))).
Proof.
  split; [|split].
  - intros st cs. cbv zeta. generalize (exec_all cs st). clear. intros st.
    rewrite getStats_sums. cbn [totalFiles totalViews totalDownloads totalSize].
    unfold getAllFiles, bind, this_files, ret. cbn [fst]. fold (live st).
    pose proof (array_sort_perm by_uploadedAt_desc (live st)) as Hp.
    rewrite array_sort_length.
    split; [reflexivity|]. split; [now apply sum_of_perm|].
    split; [now apply sum_of_perm|]. split; [reflexivity|].
    intros Hsafe. rewrite (js_sum_exact _ Hsafe). f_equal. now apply sum_of_perm.
  - intros st now d Hr. cbv zeta. apply reachable_invariant in Hr.
    rewrite !getStats_sums, (live_createFile now d st Hr).
    cbn [totalFiles totalViews totalDownloads totalSize].
    rewrite map_app, !sum_of_app, length_app. cbn [map].
    rewrite js_sum_snoc. simpl. f_equal; lia.
  - intros st id f Hr Hget Hsafe. cbv zeta. apply reachable_invariant in Hr.
    destruct (live_deleteFile_present id f st Hr Hget) as (l1 & l2 & Hl & Hl').
    rewrite !getStats_sums, Hl'. rewrite Hl in Hsafe.
    rewrite (js_sum_exact _ (sizes_safe_remove _ _ _ Hsafe)). rewrite Hl.
    cbn [totalFiles totalViews totalDownloads totalSize].
    rewrite !sum_of_app, !length_app. simpl. f_equal; try lia. f_equal. lia.
Qed.

(** C2. Over any run of calls on one store (creations, deletions and every
    other call, from any starting state), the ids returned by the successive
    [createFile] calls are strictly increasing, and none occurs twice. *)
Theorem C2_created_ids_strictly_increasing :
  forall (st : MemStorage) (cs : list call),
    let ids := created_ids (fst (perform_all cs st)) in
    StronglySorted Z.lt ids /\ NoDup ids.
Proof.
  intros st cs ids.
  destruct (created_ids_increasing cs st) as [_ Hs].
  split; [exact Hs | now apply StronglySorted_lt_NoDup].
Qed.

(** C5. [createFile] is a total function of the clock reading, the draft and
    the state.  The record it returns carries the id counter's value before
    the call as its id, the clock reading as [uploadedAt], zero [views] and
    [downloads], and the five fields of the draft; afterwards that record is
    stored under its id, every other key is as before, and the id counter is
    larger by exactly 1. *)
Theorem C5_createFile_contract :
  forall (now : Z) (d : InsertFile.t) (st : MemStorage),
    let file := fst (createFile now d st) in
    let st' := snd (createFile now d st) in
    file = File.mk (currentId st)
                   (InsertFile.filename d) (InsertFile.originalName d)
                   (InsertFile.mimeType d) (InsertFile.size d)
                   (InsertFile.shareId d) now 0 0 /\
    JsMap.get (File.id file) (files st') = Some file /\
    In file (fst (getAllFiles st')) /\
    (forall k, k <> File.id file ->
               JsMap.get k (files st') = JsMap.get k (files st)) /\
    currentId st' = currentId st + 1.
Proof.
  intros now d st. simpl. repeat split.
  - apply get_set_same.
  - unfold getAllFiles, bind, this_files, ret. simpl.
    apply array_sort_In. unfold JsMap.values.
    set (f := File.mk _ _ _ _ _ _ _ _ _).
    change f with (snd (currentId st, f)). apply in_map.
    apply get_Some_In, get_set_same.
  - intros k Hk. apply get_set_other. congruence.
Qed.

(** C10. [getAllFiles] and [getStats] return the state they were called on:
    the map of records, with every field of every record, and the id counter
    are the same after the call as before. *)
Theorem C10_reads_leave_store_unchanged :
  forall st : MemStorage,
    snd (getAllFiles st) = st /\ snd (getStats st) = st.
Proof. intros st. split; reflexivity. Qed.

(** ** Lookup by share id *)

Lemma find_first {A : Type} (p : A -> bool) (l : list A) :
  match find p l with
  | Some x => exists l1 l2, l = l1 ++ x :: l2 /\ p x = true /\
                            Forall (fun y => p y = false) l1
  | None => Forall (fun y => p y = false) l
  end.
Proof.
  induction l as [|y r IH]; simpl.
  - constructor.
  - destruct (p y) eqn:E.
    + exists [], r. repeat split; auto.
    + destruct (find p r) as [x|].
      * destruct IH as (l1 & l2 & -> & Hx & Hl1).
        exists (y :: l1), l2. repeat split; auto.
      * now constructor.
Qed.

Lemma find_values_set (p : File.t -> bool) k f (m : JsMap.t File.t) :
  p f = true ->
  Forall (fun g => p g = false) (JsMap.values m) ->
  find p (JsMap.values (JsMap.set k f m)) = Some f.
Proof.
  intros Hf. induction m as [|[k' g] r IH]; simpl; intros Hall.
  - now rewrite Hf.
  - inversion Hall as [|? ? Hg Hr]; subst. simpl in Hg.
    destruct (k =? k'); simpl.
    + now rewrite Hf.
    + rewrite Hg. now apply IH.
Qed.

Lemma getFileByShareId_first_match (st : MemStorage) (s : string) :
  match fst (getFileByShareId s st) with
  | Some f =>
      File.shareId f = s /\
      exists before after,
        live st = before ++ f :: after /\
        Forall (fun g => File.shareId g <> s) before
  | None => Forall (fun g => File.shareId g <> s) (live st)
  end.
Proof.
  unfold getFileByShareId, bind, this_files, ret, array_find, live. simpl.
  pose proof (find_first (fun file => String.eqb (File.shareId file) s)
                         (JsMap.values (files st))) as H.
  destruct (find _ _) as [f|].
  - destruct H as (l1 & l2 & Hl & Hf & Hl1). apply String.eqb_eq in Hf.
    split; auto. exists l1, l2. split; auto.
    eapply Forall_impl; [|exact Hl1]. simpl. intros g Hg. now apply String.eqb_neq.
  - eapply Forall_impl; [|exact H]. simpl. intros g Hg. now apply String.eqb_neq.
Qed.

(** C4. [getFileByShareId s] hands back the state it was called on.  When it
    returns a record, that record is live, its [shareId] is [s], and no
    record inserted before it has [shareId] [s] (it is the first match in
    insertion order); when it returns [undefined], no live record has
    [shareId] [s]. *)
Theorem C4_getFileByShareId_first_match :
  forall (st : MemStorage) (s : string),
    snd (getFileByShareId s st) = st /\
    match fst (getFileByShareId s st) with
    | Some f =>
        File.shareId f = s /\
        exists before after,
          live st = before ++ f :: after /\
          Forall (fun g => File.shareId g <> s) before
    | None => Forall (fun g => File.shareId g <> s) (live st)
    end.
Proof.
  intros st s. split; [reflexivity | apply getFileByShareId_first_match].
Qed.

(** C9. If no live record has the [shareId] of the draft, then looking that
    [shareId] up right after [createFile] returns exactly the record that
    [createFile] returned. *)
Theorem C9_create_then_lookup :
  forall (st : MemStorage) (now : Z) (d : InsertFile.t),
    Forall (fun g => File.shareId g <> InsertFile.shareId d) (live st) ->
    fst (getFileByShareId (InsertFile.shareId d) (snd (createFile now d st))) =
    Some (fst (createFile now d st)).
Proof.
  intros st now d Hfree.
  unfold getFileByShareId, bind, this_files, ret, array_find. simpl.
  apply find_values_set.
  - simpl. apply String.eqb_refl.
  - eapply Forall_impl; [|exact Hfree]. simpl. intros g Hg. now apply String.eqb_neq.
Qed.

(** ** The effect of one call on one key *)

Lemma get_exec k c st :
  JsMap.get k (files (exec c st)) =
  match c with
  | CreateFile now d =>
      if k =? currentId st then Some (fst (createFile now d st))
      else JsMap.get k (files st)
  | IncrementViews i =>
      if k =? i
      then option_map (fun f => with_views f (File.views f + 1)) (JsMap.get k (files st))
      else JsMap.get k (files st)
  | IncrementDownloads i =>
      if k =? i
      then option_map (fun f => with_downloads f (File.downloads f + 1))
                      (JsMap.get k (files st))
      else JsMap.get k (files st)
  | DeleteFile i => if k =? i then None else JsMap.get k (files st)
  | _ => JsMap.get k (files st)
  end.
Proof.
  destruct c; try reflexivity.
  - rewrite exec_createFile. simpl. destruct (k =? currentId st) eqn:E.
    + apply Z.eqb_eq in E. subst k. apply get_set_same.
    + apply Z.eqb_neq in E. apply get_set_other. congruence.
  - rewrite exec_incrementViews. unfold incrementViews, bind, this_files.
    destruct (k =? id) eqn:E.
    + apply Z.eqb_eq in E. subst k.
      destruct (JsMap.get id (files st)) as [f|] eqn:G; simpl; auto.
      apply get_set_same.
    + apply Z.eqb_neq in E.
      destruct (JsMap.get id (files st)) as [f|] eqn:G; simpl; auto.
      apply get_set_other. congruence.
  - rewrite exec_incrementDownloads. unfold incrementDownloads, bind, this_files.
    destruct (k =? id) eqn:E.
    + apply Z.eqb_eq in E. subst k.
      destruct (JsMap.get id (files st)) as [f|] eqn:G; simpl; auto.
      apply get_set_same.
    + apply Z.eqb_neq in E.
      destruct (JsMap.get id (files st)) as [f|] eqn:G; simpl; auto.
      apply get_set_other. congruence.
  - rewrite exec_deleteFile. simpl. destruct (k =? id) eqn:E.
    + apply Z.eqb_eq in E. subst k. apply get_delete_same.
    + apply Z.eqb_neq in E. apply get_delete_other. congruence.
Qed.

Lemma invariant_get st k f :
  invariant st -> JsMap.get k (files st) = Some f ->
  File.id f = k /\ k < currentId st /\ 0 <= File.views f /\ 0 <= File.downloads f.
Proof.
  intros [_ Hall] Hget. apply get_Some_In in Hget.
  rewrite Forall_forall in Hall. exact (Hall _ Hget).
Qed.

(** A record that survives a call keeps every field but the two counters,
    and those do not go down. *)
Lemma exec_survivor st c k f f' :
  invariant st ->
  JsMap.get k (files st) = Some f ->
  JsMap.get k (files (exec c st)) = Some f' ->
  File.views f <= File.views f' /\ File.downloads f <= File.downloads f'.
Proof.
  intros Hinv Hget Hget'.
  destruct (invariant_get _ _ _ Hinv Hget) as (_ & Hlt & _ & _).
  rewrite get_exec in Hget'. destruct c.
  - assert (E : (k =? currentId st) = false) by (apply Z.eqb_neq; lia).
    rewrite E in Hget'. rewrite Hget in Hget'. injection Hget' as <-. lia.
  - rewrite Hget in Hget'. injection Hget' as <-. lia.
  - rewrite Hget in Hget'. injection Hget' as <-. lia.
  - rewrite Hget in Hget'. destruct (k =? id); simpl in Hget';
      injection Hget' as <-; simpl; lia.
  - rewrite Hget in Hget'. destruct (k =? id); simpl in Hget';
      injection Hget' as <-; simpl; lia.
  - destruct (k =? id); [discriminate|].
    rewrite Hget in Hget'. injection Hget' as <-. lia.
  - rewrite Hget in Hget'. injection Hget' as <-. lia.
Qed.

(** An id below the counter that is not live never becomes live again. *)
Lemma exec_all_stays_absent cs : forall st k,
  k < currentId st ->
  JsMap.get k (files st) = None ->
  JsMap.get k (files (exec_all cs st)) = None.
Proof.
  induction cs as [|c r IH]; intros st k Hlt Hnone; [exact Hnone|].
  rewrite exec_all_cons. apply IH.
  - pose proof (currentId_exec_le c st). lia.
  - rewrite get_exec. destruct c; auto.
    + assert (E : (k =? currentId st) = false) by (apply Z.eqb_neq; lia).
      now rewrite E.
    + rewrite Hnone. now destruct (k =? id).
    + rewrite Hnone. now destruct (k =? id).
    + now destruct (k =? id).
Qed.

Lemma exec_all_survivor cs : forall st k f f',
  invariant st ->
  JsMap.get k (files st) = Some f ->
  JsMap.get k (files (exec_all cs st)) = Some f' ->
  File.views f <= File.views f' /\ File.downloads f <= File.downloads f'.
Proof.
  induction cs as [|c r IH]; intros st k f f' Hinv Hget Hget'.
  - rewrite exec_all_nil in Hget'. rewrite Hget in Hget'. injection Hget' as <-. lia.
  - rewrite exec_all_cons in Hget'.
    destruct (JsMap.get k (files (exec c st))) as [f1|] eqn:E.
    + pose proof (exec_survivor _ _ _ _ _ Hinv Hget E).
      pose proof (IH _ _ _ _ (invariant_exec c st Hinv) E Hget'). lia.
    + destruct (invariant_get _ _ _ Hinv Hget) as (_ & Hlt & _).
      pose proof (currentId_exec_le c st).
      rewrite (exec_all_stays_absent r (exec c st) k) in Hget'; [discriminate|lia|exact E].
Qed.

(** C8. A record starts with both counters at 0.  In a reachable state,
    take any run of calls (a single call of any of the seven kinds
    included): a record that is live before the run and still live after it
    has [views] and [downloads] counters that are not negative and not
    smaller than they were before the run. *)
Theorem C8_counters_never_decrease :
  (forall (now : Z) (d : InsertFile.t) (st : MemStorage),
      File.views (fst (createFile now d st)) = 0 /\
      File.downloads (fst (createFile now d st)) = 0) /\
  (forall (st : MemStorage) (cs : list call) (k : Z) (f f' : File.t),
      reachable st ->
      JsMap.get k (files st) = Some f ->
      JsMap.get k (files (exec_all cs st)) = Some f' ->
      0 <= File.views f <= File.views f' /\
      0 <= File.downloads f <= File.downloads f').
Proof.
  split; [intros; split; reflexivity|].
  intros st cs k f f' Hr Hget Hget'.
  apply reachable_invariant in Hr.
  destruct (invariant_get _ _ _ Hr Hget) as (_ & _ & Hv & Hd).
  pose proof (exec_all_survivor cs _ _ _ _ Hr Hget Hget'). lia.
Qed.

(** ** Counter increments *)

Lemma incrementViews_present id f st :
  JsMap.get id (files st) = Some f ->
  exists m1 m2,
    files st = m1 ++ (id, f) :: m2 /\
    snd (incrementViews id st) =
      mkMemStorage (m1 ++ (id, with_views f (File.views f + 1)) :: m2) (currentId st).
Proof.
  intros Hget. unfold incrementViews, bind, this_files. rewrite Hget. simpl.
  destruct (set_present id (with_views f (File.views f + 1)) f _ Hget)
    as (m1 & m2 & Hm & Hs).
  exists m1, m2. now rewrite Hs.
Qed.

Lemma incrementDownloads_present id f st :
  JsMap.get id (files st) = Some f ->
  exists m1 m2,
    files st = m1 ++ (id, f) :: m2 /\
    snd (incrementDownloads id st) =
      mkMemStorage (m1 ++ (id, with_downloads f (File.downloads f + 1)) :: m2)
                   (currentId st).
Proof.
  intros Hget. unfold incrementDownloads, bind, this_files. rewrite Hget. simpl.
  destruct (set_present id (with_downloads f (File.downloads f + 1)) f _ Hget)
    as (m1 & m2 & Hm & Hs).
  exists m1, m2. now rewrite Hs.
Qed.

Lemma increment_absent id st :
  JsMap.get id (files st) = None ->
  incrementViews id st = (tt, st) /\ incrementDownloads id st = (tt, st).
Proof.
  intros Hget. unfold incrementViews, incrementDownloads, bind, this_files.
  now rewrite Hget.
Qed.

(** One call other than [deleteFile id] moves the counters of record [id] by
    what the call asks for and by nothing else. *)
Lemma exec_counts st c id f :
  invariant st ->
  JsMap.get id (files st) = Some f ->
  never_deletes id [c] = true ->
  exists f1,
    JsMap.get id (files (exec c st)) = Some f1 /\
    File.views f1 = File.views f + count_views id [c] /\
    File.downloads f1 = File.downloads f + count_downloads id [c].
Proof.
  intros Hinv Hget Hnd.
  destruct (invariant_get _ _ _ Hinv Hget) as (_ & Hlt & _ & _).
  rewrite get_exec. destruct c; simpl in *.
  - assert (E : (id =? currentId st) = false) by (apply Z.eqb_neq; lia).
    rewrite E. exists f. split; auto. lia.
  - exists f. split; auto. lia.
  - exists f. split; auto. lia.
  - rewrite (Z.eqb_sym id0 id). destruct (id =? id0); rewrite Hget; simpl;
      eexists; split; try reflexivity; simpl; lia.
  - rewrite (Z.eqb_sym id0 id). destruct (id =? id0); rewrite Hget; simpl;
      eexists; split; try reflexivity; simpl; lia.
  - rewrite (Z.eqb_sym id0 id) in Hnd. destruct (id =? id0); [discriminate|].
    exists f. split; auto. lia.
  - exists f. split; auto. lia.
Qed.

Lemma count_views_cons id c cs :
  count_views id (c :: cs) = count_views id [c] + count_views id cs.
Proof. destruct c; simpl; lia. Qed.

Lemma count_downloads_cons id c cs :
  count_downloads id (c :: cs) = count_downloads id [c] + count_downloads id cs.
Proof. destruct c; simpl; lia. Qed.

Lemma never_deletes_cons id c cs :
  never_deletes id (c :: cs) = never_deletes id [c] && never_deletes id cs.
Proof. destruct c; simpl; auto. now rewrite andb_true_r. Qed.

Lemma exec_all_counts cs : forall st id f,
  invariant st ->
  JsMap.get id (files st) = Some f ->
  never_deletes id cs = true ->
  exists f',
    JsMap.get id (files (exec_all cs st)) = Some f' /\
    File.views f' = File.views f + count_views id cs /\
    File.downloads f' = File.downloads f + count_downloads id cs.
Proof.
  induction cs as [|c r IH]; intros st id f Hinv Hget Hnd.
  - exists f. simpl. rewrite exec_all_nil. split; auto. lia.
  - rewrite never_deletes_cons in Hnd. apply andb_prop in Hnd as [Hc Hr].
    destruct (exec_counts st c id f Hinv Hget Hc) as (f1 & Hget1 & Hv1 & Hd1).
    destruct (IH (exec c st) id f1 (invariant_exec c st Hinv) Hget1 Hr)
      as (f' & Hget' & Hv' & Hd').
    exists f'. rewrite exec_all_cons, count_views_cons, count_downloads_cons.
    split; auto. lia.
Qed.

(** C6. In a reachable state: when a record with the given id is live,
    [incrementViews] replaces it, in place, by the same record with [views]
    larger by 1, and [incrementDownloads] does the same for [downloads],
    leaving the rest of the store as it was; when no such record is live,
    both calls return with the state unchanged.  Over any run of calls that
    does not delete the record, its [views] grow by exactly the number of
    [incrementViews] calls on its id in the run, and its [downloads] by the
    number of [incrementDownloads] calls on its id. *)
Theorem C6_increment_counters :
  forall (st : MemStorage) (id : Z),
    reachable st ->
    (forall f, JsMap.get id (files st) = Some f ->
       exists m1 m2,
         files st = m1 ++ (id, f) :: m2 /\
         snd (incrementViews id st) =
           mkMemStorage (m1 ++ (id, with_views f (File.views f + 1)) :: m2)
                        (currentId st) /\
         snd (incrementDownloads id st) =
           mkMemStorage (m1 ++ (id, with_downloads f (File.downloads f + 1)) :: m2)
                        (currentId st)) /\
    (JsMap.get id (files st) = None ->
       incrementViews id st = (tt, st) /\ incrementDownloads id st = (tt, st)) /\
    (forall f cs,
       JsMap.get id (files st) = Some f ->
       never_deletes id cs = true ->
       exists f',
         JsMap.get id (files (exec_all cs st)) = Some f' /\
         File.views f' = File.views f + count_views id cs /\
         File.downloads f' = File.downloads f + count_downloads id cs).
Proof.
  intros st id Hr. apply reachable_invariant in Hr. repeat split.
  - intros f Hget.
    destruct (incrementViews_present id f st Hget) as (m1 & m2 & Hm & Hv).
    destruct (incrementDownloads_present id f st Hget) as (m1' & m2' & Hm' & Hd).
    assert (m1' = m1 /\ m2' = m2) as [-> ->].
    { destruct Hr as [Hnd _]. rewrite Hm in Hm'. clear - Hnd Hm Hm'.
      rewrite Hm in Hnd. clear Hm. revert m1' Hm'.
      induction m1 as [|[k v] r IH]; intros m1' Hm'.
      - destruct m1' as [|[k' v'] r']; simpl in *.
        + injection Hm' as <-. auto.
        + injection Hm' as <- <- ->. exfalso. inversion Hnd as [|? ? Hn _]; subst.
          apply Hn. unfold JsMap.keys. rewrite map_app. simpl.
          apply in_or_app. right. now left.
      - destruct m1' as [|[k' v'] r']; simpl in *.
        + injection Hm' as -> -> <-. exfalso. inversion Hnd as [|? ? Hn _]; subst.
          apply Hn. unfold JsMap.keys. rewrite map_app. simpl.
          apply in_or_app. right. now left.
        + injection Hm' as <- <- Hm'. inversion Hnd; subst.
          destruct (IH ltac:(assumption) r' Hm') as [-> ->]. auto. }
    exists m1, m2. auto.
  - now apply increment_absent.
  - now apply increment_absent.
  - intros f cs Hget Hnd. now apply exec_all_counts.
Qed.

(** ** Deletion *)

Lemma find_none {A : Type} (p : A -> bool) (l : list A) :
  Forall (fun y => p y = false) l -> find p l = None.
Proof.
  induction 1 as [|y r Hy Hr IH]; simpl; auto. now rewrite Hy.
Qed.

(** Deleting an id drops exactly the records with that id and keeps the
    others in their order. *)
Lemma values_delete id (m : JsMap.t File.t) :
  Forall (fun kv => File.id (snd kv) = fst kv) m ->
  JsMap.values (JsMap.delete id m) =
  filter (fun g => negb (File.id g =? id)) (JsMap.values m).
Proof.
  induction 1 as [|[k g] r Hk Hr IH]; simpl; auto.
  simpl in Hk. rewrite Hk, (Z.eqb_sym k id).
  destruct (id =? k); simpl; now rewrite IH.
Qed.

Lemma live_deleteFile id st :
  invariant st ->
  live (snd (deleteFile id st)) =
  filter (fun g => negb (File.id g =? id)) (live st).
Proof.
  intros [_ Hall]. unfold live. simpl. apply values_delete.
  eapply Forall_impl; [|exact Hall]. unfold record_ok. tauto.
Qed.

Lemma deleteFile_absent id st :
  JsMap.get id (files st) = None -> deleteFile id st = (tt, st).
Proof.
  intros H. unfold deleteFile, files_delete. rewrite (delete_absent _ _ H).
  now destruct st.
Qed.

Lemma In_live st k f : JsMap.get k (files st) = Some f -> In f (live st).
Proof.
  intros H. apply get_Some_In in H. unfold live, JsMap.values.
  change f with (snd (k, f)). now apply in_map.
Qed.

(** C7. In a reachable state, [deleteFile id] returns no data and
    changes nothing but the entry of [id]: afterwards no live record has
    that id, neither [getAllFiles] nor any [getFileByShareId] returns such a
    record, the other records are kept in their order, and the id counter
    is as before.  If a record [f] was live under [id] and no other live
    record carries the [shareId] of [f], then looking that [shareId] up
    afterwards finds nothing.  When [id] is not live the call leaves the
    state unchanged; this is the case for a second [deleteFile id]. *)
Theorem C7_deleteFile_contract :
  forall (st : MemStorage) (id : Z),
    reachable st ->
    let st' := snd (deleteFile id st) in
    JsMap.get id (files st') = None /\
    live st' = filter (fun g => negb (File.id g =? id)) (live st) /\
    currentId st' = currentId st /\
    Forall (fun g => File.id g <> id) (fst (getAllFiles st')) /\
    (forall s, match fst (getFileByShareId s st') with
               | Some g => File.id g <> id
               | None => True
               end) /\
    (forall f,
        JsMap.get id (files st) = Some f ->
        Forall (fun g => File.id g <> id -> File.shareId g <> File.shareId f)
               (live st) ->
        fst (getFileByShareId (File.shareId f) st') = None) /\
    (JsMap.get id (files st) = None -> deleteFile id st = (tt, st)) /\
    deleteFile id st' = (tt, st').
Proof.
  intros st id Hr st'. apply reachable_invariant in Hr.
  pose proof (live_deleteFile id st Hr) as Hlive. fold st' in Hlive.
  assert (Hids : Forall (fun g => File.id g <> id) (live st')).
  { rewrite Hlive. apply Forall_forall. intros g Hg.
    apply filter_In in Hg as [_ Hg]. apply negb_true_iff, Z.eqb_neq in Hg. exact Hg. }
  split; [apply get_delete_same|].
  split; [exact Hlive|].
  split; [reflexivity|].
  split.
  { apply Forall_forall. intros g Hg.
    unfold getAllFiles, bind, this_files, ret in Hg. simpl in Hg.
    apply array_sort_In in Hg. rewrite Forall_forall in Hids. now apply Hids. }
  split.
  { intros s. pose proof (getFileByShareId_first_match st' s) as H.
    destruct (fst (getFileByShareId s st')) as [g|]; [|exact I].
    destruct H as (_ & l1 & l2 & Hl & _).
    rewrite Forall_forall in Hids. apply Hids. rewrite Hl.
    apply in_or_app. right. now left. }
  split.
  { intros f Hget Huniq.
    unfold getFileByShareId, bind, this_files, ret, array_find. simpl.
    apply find_none. change (JsMap.values _) with (live st'). rewrite Hlive.
    apply Forall_forall. intros g Hg. apply filter_In in Hg as [Hin Hg].
    apply negb_true_iff, Z.eqb_neq in Hg.
    rewrite Forall_forall in Huniq. apply String.eqb_neq. now apply Huniq. }
  split.
  { apply deleteFile_absent. }
  apply deleteFile_absent. apply get_delete_same.
Qed.

(** Two uploads that were given the same share id: after the first is
    deleted, looking its share id up finds the second. *)
Lemma C7_counterexample :
  let st := exec_all [CreateFile 1000 (photo "abc123");
                      CreateFile 2000 (photo "abc123")] new_MemStorage in
  reachable st /\
  JsMap.get 1 (files st) = Some (stored_photo 1 "abc123" 1000 0 0) /\
  fst (getFileByShareId "abc123" (snd (deleteFile 1 st))) =
    Some (stored_photo 2 "abc123" 2000 0 0) /\
  ~ lookup_fails_after_delete st 1.
Proof.
  cbv zeta. split; [eexists; reflexivity|].
  split; [reflexivity|]. split; [reflexivity|].
  intros H. specialize (H _ eq_refl). discriminate H.
Qed.

(** ** Order of [getAllFiles] *)

Lemma stands_before_filter (p : File.t -> bool) a b l :
  stands_before a b l -> p a = true -> p b = true ->
  stands_before a b (filter p l).
Proof.
  intros (l1 & l2 & l3 & ->) Ha Hb.
  exists (filter p l1), (filter p l2), (filter p l3).
  rewrite filter_app. simpl. rewrite Ha, filter_app. simpl. now rewrite Hb.
Qed.

Lemma filter_split (p : File.t -> bool) x l : forall l1' r',
  filter p l = l1' ++ x :: r' ->
  exists l1 r, l = l1 ++ x :: r /\ filter p r = r'.
Proof.
  induction l as [|y l IH]; intros l1' r' H; simpl in H.
  - now destruct l1'.
  - destruct (p y) eqn:E.
    + destruct l1' as [|z l1']; simpl in H.
      * injection H as -> <-. now exists [], l.
      * injection H as -> H. destruct (IH _ _ H) as (l1 & r & -> & Hr).
        now exists (z :: l1), r.
    + destruct (IH _ _ H) as (l1 & r & -> & Hr). now exists (y :: l1), r.
Qed.

Lemma stands_before_of_filter (p : File.t -> bool) a b l :
  stands_before a b (filter p l) -> stands_before a b l.
Proof.
  intros (l1' & l2' & l3' & H).
  destruct (filter_split p a l _ _ H) as (l1 & r & -> & Hr).
  destruct (filter_split p b r _ _ Hr) as (l2 & l3 & -> & _).
  now exists l1, l2, l3.
Qed.

Lemma getAllFiles_ties_oldest_first st : ties_oldest_first st.
Proof.
  intros a b Hab Ht.
  apply stands_before_of_filter with (p := uploaded_at (File.uploadedAt a)).
  unfold getAllFiles, bind, this_files, ret. simpl.
  rewrite array_sort_by_uploadedAt_stable.
  apply stands_before_filter; auto; unfold uploaded_at.
  - apply Z.eqb_refl.
  - apply Z.eqb_eq. now symmetry.
Qed.

(** A record older than all that follow it ends up last. *)
Lemma insert_oldest_last x l :
  Forall (fun y => File.uploadedAt x < File.uploadedAt y) l ->
  insert_sorted by_uploadedAt_desc x l = l ++ [x].
Proof.
  induction 1 as [|y r Hy Hr IH]; simpl; auto.
  unfold by_uploadedAt_desc at 1.
  destruct (File.uploadedAt y - File.uploadedAt x <=? 0) eqn:E.
  - apply Z.leb_le in E. lia.
  - now rewrite IH.
Qed.

Lemma array_sort_increasing l :
  StronglySorted (fun a b => File.uploadedAt a < File.uploadedAt b) l ->
  array_sort by_uploadedAt_desc l = rev l.
Proof.
  induction 1 as [|x r Hs IH Hall]; simpl; auto.
  rewrite IH. apply insert_oldest_last.
  apply Forall_forall. intros y Hy. apply in_rev in Hy.
  rewrite Forall_forall in Hall. now apply Hall.
Qed.

(** Two uploads stamped with the same millisecond come back in insertion
    order, the earlier one first. *)
Lemma C3_counterexample :
  let st := exec_all [CreateFile 5000 (photo "aaa");
                      CreateFile 5000 (photo "bbb")] new_MemStorage in
  reachable st /\
  fst (getAllFiles st) = [stored_photo 1 "aaa" 5000 0 0;
                          stored_photo 2 "bbb" 5000 0 0] /\
  ~ ties_newest_first st.
Proof.
  cbv zeta. split; [eexists; reflexivity|]. split; [reflexivity|].
  intros H.
  specialize (H (stored_photo 1 "aaa" 5000 0 0) (stored_photo 2 "bbb" 5000 0 0)).
  destruct H as (l1 & l2 & l3 & H).
  - now exists [], [], [].
  - reflexivity.
  - change (fst (getAllFiles _)) with [stored_photo 1 "aaa" 5000 0 0;
                                       stored_photo 2 "bbb" 5000 0 0] in H.
    destruct l1 as [|x [|y l1]]; simpl in H.
    + discriminate H.
    + injection H as _ H. destruct l2; discriminate H.
    + injection H as _ _ H. destruct l1; discriminate H.
Qed.

(** C3. [getAllFiles] returns the live records, each once, in
    descending order of [uploadedAt]; records with equal [uploadedAt] keep
    their insertion order, the one inserted earlier first.  When the
    timestamps grow strictly along the insertion order the result is the
    reverse of the insertion order; so three records created on a fresh
    store at strictly increasing times come back as third, second, first. *)
Theorem C3_getAllFiles_order :
  (forall st : MemStorage,
      let all := fst (getAllFiles st) in
      Permutation (live st) all /\
      StronglySorted newer_or_equal all /\
      ties_oldest_first st /\
      (forall t, filter (uploaded_at t) all = filter (uploaded_at t) (live st))) /\
  (forall st : MemStorage,
      StronglySorted (fun a b => File.uploadedAt a < File.uploadedAt b) (live st) ->
      fst (getAllFiles st) = rev (live st)) /\
  (forall (tA tB tC : Z) (dA dB dC : InsertFile.t),
      tA < tB -> tB < tC ->
      let stA := snd (createFile tA dA new_MemStorage) in
      let stB := snd (createFile tB dB stA) in
      let stC := snd (createFile tC dC stB) in
      fst (getAllFiles stC) =
        [fst (createFile tC dC stB);
         fst (createFile tB dB stA);
         fst (createFile tA dA new_MemStorage)]).
Proof.
  split; [|split].
  - intros st all. subst all.
    split; [apply array_sort_perm|].
    split; [apply array_sort_by_uploadedAt_sorted|].
    split; [apply getAllFiles_ties_oldest_first|].
    intros t. apply array_sort_by_uploadedAt_stable.
  - intros st Hs. apply array_sort_increasing. exact Hs.
  - intros tA tB tC dA dB dC HAB HBC. cbv zeta.
    set (stC := snd (createFile tC dC _)).
    change (fst (getAllFiles stC) = rev (live stC)).
    apply array_sort_increasing. simpl.
    repeat constructor; simpl; lia.
Qed.

(** ** The theorems at concrete runs *)

Lemma C3_witness :
  fst (getAllFiles (exec_all [CreateFile 1000 (photo "aaa");
                              CreateFile 2000 (photo "bbb");
                              CreateFile 3000 (photo "ccc")] new_MemStorage)) =
  [stored_photo 3 "ccc" 3000 0 0;
   stored_photo 2 "bbb" 2000 0 0;
   stored_photo 1 "aaa" 1000 0 0].
Proof.
  apply (proj2 (proj2 C3_getAllFiles_order)
               1000 2000 3000 (photo "aaa") (photo "bbb") (photo "ccc")); lia.
Defined.

Lemma C6_witness :
  let st := exec_all [CreateFile 1000 (photo "abc123")] new_MemStorage in
  let cs := [IncrementViews 1; CreateFile 2000 (photo "xyz789");
             IncrementViews 2; IncrementViews 1; IncrementDownloads 1;
             DeleteFile 2; IncrementViews 7; IncrementViews 1] in
  reachable st /\
  exists f',
    JsMap.get 1 (files (exec_all cs st)) = Some f' /\
    File.views f' = 0 + 3 /\
    File.downloads f' = 0 + 1.
Proof.
  cbv zeta.
  assert (Hr : reachable (exec_all [CreateFile 1000 (photo "abc123")] new_MemStorage))
    by (eexists; reflexivity).
  split; [exact Hr|].
  destruct (C6_increment_counters _ 1 Hr) as (_ & _ & H).
  exact (H (stored_photo 1 "abc123" 1000 0 0)
           [IncrementViews 1; CreateFile 2000 (photo "xyz789");
            IncrementViews 2; IncrementViews 1; IncrementDownloads 1;
            DeleteFile 2; IncrementViews 7; IncrementViews 1]
           eq_refl eq_refl).
Defined.

Lemma C7_witness :
  let st := exec_all [CreateFile 1000 (photo "abc123");
                      CreateFile 2000 (photo "xyz789")] new_MemStorage in
  reachable st /\
  JsMap.get 1 (files st) = Some (stored_photo 1 "abc123" 1000 0 0) /\
  fst (getFileByShareId "abc123" (snd (deleteFile 1 st))) = None /\
  fst (getAllFiles (snd (deleteFile 1 st))) = [stored_photo 2 "xyz789" 2000 0 0].
Proof.
  cbv zeta.
  assert (Hr : reachable (exec_all [CreateFile 1000 (photo "abc123");
                                    CreateFile 2000 (photo "xyz789")] new_MemStorage))
    by (eexists; reflexivity).
  split; [exact Hr|]. split; [reflexivity|]. split; [|reflexivity].
  destruct (C7_deleteFile_contract _ 1 Hr) as (_ & _ & _ & _ & _ & H & _).
  apply (H (stored_photo 1 "abc123" 1000 0 0) eq_refl).
  repeat constructor; simpl; intros Hid.
  - exfalso. now apply Hid.
  - discriminate.
Defined.

Lemma C8_witness :
  let st := exec_all [CreateFile 1000 (photo "abc123")] new_MemStorage in
  let cs := [IncrementViews 1; IncrementDownloads 1; GetStats; IncrementViews 1] in
  reachable st /\
  JsMap.get 1 (files st) = Some (stored_photo 1 "abc123" 1000 0 0) /\
  JsMap.get 1 (files (exec_all cs st)) = Some (stored_photo 1 "abc123" 1000 2 1) /\
  0 <= 0 <= 2 /\ 0 <= 0 <= 1.
Proof.
  cbv zeta.
  assert (Hr : reachable (exec_all [CreateFile 1000 (photo "abc123")] new_MemStorage))
    by (eexists; reflexivity).
  split; [exact Hr|]. split; [reflexivity|]. split; [reflexivity|].
  exact (proj2 C8_counters_never_decrease _
               [IncrementViews 1; IncrementDownloads 1; GetStats; IncrementViews 1]
               1 (stored_photo 1 "abc123" 1000 0 0) (stored_photo 1 "abc123" 1000 2 1)
               Hr eq_refl eq_refl).
Defined.

Lemma C9_witness :
  let st := exec_all [CreateFile 1000 (photo "abc123")] new_MemStorage in
  Forall (fun g => File.shareId g <> "xyz789"%string) (live st) /\
  fst (getFileByShareId "xyz789" (snd (createFile 2000 (photo "xyz789") st))) =
    Some (stored_photo 2 "xyz789" 2000 0 0).
Proof.
  cbv zeta.
  assert (H : Forall (fun g => File.shareId g <> "xyz789"%string)
                     (live (exec_all [CreateFile 1000 (photo "abc123")] new_MemStorage)))
    by (repeat constructor; discriminate).
  split; [exact H|].
  exact (C9_create_then_lookup _ 2000 (photo "xyz789") H).
Defined.

Lemma C1_witness :
  let st := exec_all [CreateFile 1000 (photo "abc123"); IncrementViews 1]
                     new_MemStorage in
  reachable st /\
  sizes_safe (live st) /\
  fst (getStats st) = mkStats 1 1 0 (Finite 2048) /\
  fst (getStats (snd (createFile 2000 (photo "xyz789") st))) =
    mkStats 2 1 0 (Finite 4096) /\
  fst (getStats (snd (deleteFile 1 st))) = mkStats 0 0 0 (Finite 0).
Proof.
  cbv zeta.
  assert (Hr : reachable (exec_all [CreateFile 1000 (photo "abc123"); IncrementViews 1]
                                   new_MemStorage))
    by (eexists; reflexivity).
  assert (Hs : sizes_safe (live (exec_all [CreateFile 1000 (photo "abc123");
                                           IncrementViews 1] new_MemStorage))).
  { split; [repeat constructor; simpl; lia | simpl; lia]. }
  split; [exact Hr|]. split; [exact Hs|]. split; [reflexivity|]. split.
  - exact (proj1 (proj2 C1_getStats_aggregates) _ 2000 (photo "xyz789") Hr).
  - exact (proj2 (proj2 C1_getStats_aggregates) _ 1
                 (stored_photo 1 "abc123" 1000 1 0) Hr eq_refl Hs).
Defined.

(** * Further properties of the store *)

Lemma reachable_induction (P : MemStorage -> Prop) :
  P new_MemStorage ->
  (forall c st, P st -> P (exec c st)) ->
  forall st, reachable st -> P st.
Proof.
  intros Hnew Hstep st [cs ->].
  generalize new_MemStorage Hnew. induction cs as [|c r IH]; intros st0 H0.
  - exact H0.
  - rewrite exec_all_cons. apply IH. now apply Hstep.
Qed.

Lemma reachable_ids_positive st :
  reachable st ->
  1 <= currentId st /\
  forall k f, JsMap.get k (files st) = Some f -> 1 <= k.
Proof.
  revert st. apply reachable_induction.
  - split; [simpl; lia | discriminate].
  - intros c st [Hc Hk]. split.
    + pose proof (currentId_exec_le c st). lia.
    + intros k f. rewrite get_exec. destruct c; try apply Hk.
      * destruct (k =? currentId st) eqn:E; [|apply Hk].
        apply Z.eqb_eq in E. intros _. lia.
      * destruct (k =? id); [|apply Hk].
        destruct (JsMap.get k (files st)) eqn:G; [|discriminate]. intros _. eauto.
      * destruct (k =? id); [|apply Hk].
        destruct (JsMap.get k (files st)) eqn:G; [|discriminate]. intros _. eauto.
      * destruct (k =? id); [discriminate | apply Hk].
Qed.

Lemma live_ids_are_keys st :
  invariant st -> map File.id (live st) = JsMap.keys (files st).
Proof.
  intros [_ Hall]. unfold live, JsMap.values, JsMap.keys. rewrite map_map.
  apply map_ext_in. intros kv Hin. rewrite Forall_forall in Hall.
  apply (Hall kv Hin).
Qed.

Lemma In_live_get st f :
  invariant st -> In f (live st) -> JsMap.get (File.id f) (files st) = Some f.
Proof.
  intros Hinv Hin. unfold live, JsMap.values in Hin.
  apply in_map_iff in Hin as [[k g] [Hg Hin]]. simpl in Hg. subst g.
  destruct Hinv as [Hnd Hall]. rewrite Forall_forall in Hall.
  destruct (Hall _ Hin) as [Hid _]. simpl in Hid. rewrite Hid.
  now apply In_get.
Qed.

(** X1. The class invariant of [MemStorage]: in every reachable state the
    id counter is at least 1, the live records have pairwise distinct ids
    between 1 and the counter (exclusive), each record is the one the map
    holds under its own id, and no counter is negative. *)
Theorem X1_store_invariant :
  forall st : MemStorage,
    reachable st ->
    1 <= currentId st /\
    NoDup (map File.id (live st)) /\
    Forall (fun f => 1 <= File.id f < currentId st /\
                     JsMap.get (File.id f) (files st) = Some f /\
                     0 <= File.views f /\ 0 <= File.downloads f)
           (live st).
Proof.
  intros st Hr. destruct (reachable_ids_positive st Hr) as [Hc Hpos].
  apply reachable_invariant in Hr.
  split; [exact Hc|]. split.
  - rewrite (live_ids_are_keys st Hr). apply Hr.
  - apply Forall_forall. intros f Hin.
    pose proof (In_live_get st f Hr Hin) as Hget.
    destruct (invariant_get _ _ _ Hr Hget) as (_ & Hlt & Hv & Hd).
    pose proof (Hpos _ _ Hget). repeat split; auto; lia.
Qed.

Lemma same_upload_refl f : same_upload f f.
Proof. repeat split. Qed.

Lemma same_upload_trans f g h : same_upload f g -> same_upload g h -> same_upload f h.
Proof. unfold same_upload. intuition congruence. Qed.

Lemma exec_same_upload st c k f f' :
  invariant st ->
  JsMap.get k (files st) = Some f ->
  JsMap.get k (files (exec c st)) = Some f' ->
  same_upload f f'.
Proof.
  intros Hinv Hget Hget'.
  destruct (invariant_get _ _ _ Hinv Hget) as (_ & Hlt & _ & _).
  rewrite get_exec in Hget'. destruct c.
  - assert (E : (k =? currentId st) = false) by (apply Z.eqb_neq; lia).
    rewrite E, Hget in Hget'. injection Hget' as <-. apply same_upload_refl.
  - rewrite Hget in Hget'. injection Hget' as <-. apply same_upload_refl.
  - rewrite Hget in Hget'. injection Hget' as <-. apply same_upload_refl.
  - rewrite Hget in Hget'. destruct (k =? id); simpl in Hget';
      injection Hget' as <-; repeat split.
  - rewrite Hget in Hget'. destruct (k =? id); simpl in Hget';
      injection Hget' as <-; repeat split.
  - destruct (k =? id); [discriminate|].
    rewrite Hget in Hget'. injection Hget' as <-. apply same_upload_refl.
  - rewrite Hget in Hget'. injection Hget' as <-. apply same_upload_refl.
Qed.

(** X2. Apart from the two counters a record never changes: if a record is
    live under an id in a reachable state and a record is live under that
    id after any run of calls, the two agree on [id], [filename],
    [originalName], [mimeType], [size], [shareId] and [uploadedAt]. *)
Theorem X2_upload_fields_immutable :
  forall (st : MemStorage) (cs : list call) (k : Z) (f f' : File.t),
    reachable st ->
    JsMap.get k (files st) = Some f ->
    JsMap.get k (files (exec_all cs st)) = Some f' ->
    same_upload f f'.
Proof.
  intros st cs k f f' Hr. apply reachable_invariant in Hr.
  revert st f Hr. induction cs as [|c r IH]; intros st f Hinv Hget Hget'.
  - rewrite exec_all_nil, Hget in Hget'. injection Hget' as <-. apply same_upload_refl.
  - rewrite exec_all_cons in Hget'.
    destruct (JsMap.get k (files (exec c st))) as [f1|] eqn:E.
    + apply same_upload_trans with f1.
      * exact (exec_same_upload _ _ _ _ _ Hinv Hget E).
      * exact (IH _ _ (invariant_exec c st Hinv) E Hget').
    + destruct (invariant_get _ _ _ Hinv Hget) as (_ & Hlt & _).
      pose proof (currentId_exec_le c st).
      rewrite (exec_all_stays_absent r (exec c st) k) in Hget'; [discriminate|lia|exact E].
Qed.

(** X3. The ids a run hands out are consecutive: the [createFile] calls of
    a run return the id counter's value at the start of the run, then that
    value plus 1, and so on, whatever other calls come in between; on a
    fresh store they return 1, 2, 3, ... *)
Theorem X3_created_ids_consecutive :
  forall (st : MemStorage) (cs : list call),
    created_ids (fst (perform_all cs st)) = count_up (currentId st) (creations cs) /\
    currentId (exec_all cs st) = currentId st + Z.of_nat (creations cs) /\
    created_ids (fst (perform_all cs new_MemStorage)) = count_up 1 (creations cs).
Proof.
  assert (H : forall cs st,
             created_ids (fst (perform_all cs st)) =
             count_up (currentId st) (creations cs) /\
             currentId (exec_all cs st) = currentId st + Z.of_nat (creations cs)).
  { induction cs as [|c r IH]; intros st.
    - split; [reflexivity | rewrite exec_all_nil; simpl; lia].
    - rewrite created_ids_cons, exec_all_cons.
      destruct (IH (exec c st)) as [Hids Hc]. rewrite Hids, Hc.
      rewrite (currentId_exec c st).
      destruct c; simpl creations; split; try reflexivity; try lia. }
  intros st cs. destruct (H cs st) as [H1 H2].
  split; [exact H1|]. split; [exact H2|]. apply (H cs new_MemStorage).
Qed.

Lemma getStats_incrementViews st id f :
  JsMap.get id (files st) = Some f ->
  fst (getStats (snd (incrementViews id st))) =
  mkStats (totalFiles (fst (getStats st)))
          (totalViews (fst (getStats st)) + 1)
          (totalDownloads (fst (getStats st)))
          (totalSize (fst (getStats st))).
Proof.
  intros Hget. destruct (incrementViews_present id f st Hget) as (m1 & m2 & Hm & ->).
  rewrite !getStats_sums. unfold live. simpl. rewrite Hm.
  unfold JsMap.values. rewrite !map_app. simpl.
  rewrite !sum_of_app, !length_app. simpl. f_equal; lia.
Qed.

Lemma getStats_incrementDownloads st id f :
  JsMap.get id (files st) = Some f ->
  fst (getStats (snd (incrementDownloads id st))) =
  mkStats (totalFiles (fst (getStats st)))
          (totalViews (fst (getStats st)))
          (totalDownloads (fst (getStats st)) + 1)
          (totalSize (fst (getStats st))).
Proof.
  intros Hget. destruct (incrementDownloads_present id f st Hget) as (m1 & m2 & Hm & ->).
  rewrite !getStats_sums. unfold live. simpl. rewrite Hm.
  unfold JsMap.values. rewrite !map_app. simpl.
  rewrite !sum_of_app, !length_app. simpl. f_equal; lia.
Qed.

(** X4. Counting an event on a live record raises the matching total of
    [getStats] by exactly 1 and leaves the other three aggregates alone:
    [incrementViews] raises [totalViews], [incrementDownloads] raises
    [totalDownloads]. *)
Theorem X4_increment_raises_total :
  forall (st : MemStorage) (id : Z) (f : File.t),
    JsMap.get id (files st) = Some f ->
    let before := fst (getStats st) in
    fst (getStats (snd (incrementViews id st))) =
      mkStats (totalFiles before) (totalViews before + 1)
              (totalDownloads before) (totalSize before) /\
    fst (getStats (snd (incrementDownloads id st))) =
      mkStats (totalFiles before) (totalViews before)
              (totalDownloads before + 1) (totalSize before).
Proof.
  intros st id f Hget. split.
  - now apply getStats_incrementViews with f.
  - now apply getStats_incrementDownloads with f.
Qed.

Lemma X4_witness :
  let st := exec_all [CreateFile 1000 (photo "abc123"); IncrementViews 1]
                     new_MemStorage in
  fst (getStats (snd (incrementViews 1 st))) = mkStats 1 2 0 (Finite 2048) /\
  fst (getStats (snd (incrementDownloads 1 st))) = mkStats 1 1 1 (Finite 2048).
Proof.
  exact (X4_increment_raises_total
           (exec_all [CreateFile 1000 (photo "abc123"); IncrementViews 1] new_MemStorage)
           1 (stored_photo 1 "abc123" 1000 1 0) eq_refl).
Defined.

(** ** Calls commute *)

Lemma update_entry_present k g (m : JsMap.t File.t) f :
  JsMap.get k m = Some f -> JsMap.set k (g f) m = update_entry k g m.
Proof.
  induction m as [|[k' v] r IH]; simpl; [discriminate|].
  destruct (k =? k') eqn:E.
  - apply Z.eqb_eq in E. subst k'. now intros [= ->].
  - intros H. now rewrite IH.
Qed.

Lemma update_entry_absent k g (m : JsMap.t File.t) :
  JsMap.get k m = None -> update_entry k g m = m.
Proof.
  induction m as [|[k' v] r IH]; simpl; auto.
  destruct (k =? k'); [discriminate|]. intros H. now rewrite IH.
Qed.

Lemma incrementViews_update id st :
  snd (incrementViews id st) =
  mkMemStorage (update_entry id (fun f => with_views f (File.views f + 1)) (files st))
               (currentId st).
Proof.
  unfold incrementViews, bind, this_files.
  destruct (JsMap.get id (files st)) as [f|] eqn:E; simpl.
  - now rewrite (update_entry_present id (fun f => with_views f (File.views f + 1)) _ f E).
  - rewrite (update_entry_absent _ _ _ E). now destruct st.
Qed.

Lemma incrementDownloads_update id st :
  snd (incrementDownloads id st) =
  mkMemStorage
    (update_entry id (fun f => with_downloads f (File.downloads f + 1)) (files st))
    (currentId st).
Proof.
  unfold incrementDownloads, bind, this_files.
  destruct (JsMap.get id (files st)) as [f|] eqn:E; simpl.
  - now rewrite (update_entry_present id
                   (fun f => with_downloads f (File.downloads f + 1)) _ f E).
  - rewrite (update_entry_absent _ _ _ E). now destruct st.
Qed.

Lemma update_entry_comm i j g h (m : JsMap.t File.t) :
  (forall v, g (h v) = h (g v)) ->
  update_entry i g (update_entry j h m) = update_entry j h (update_entry i g m).
Proof.
  intros Hgh. induction m as [|[k v] r IH]; simpl; auto.
  destruct (i =? k) eqn:Ei, (j =? k) eqn:Ej; simpl; rewrite ?Ei, ?Ej; auto.
  - now rewrite Hgh.
  - now rewrite IH.
Qed.

Lemma delete_update_entry k i g (m : JsMap.t File.t) :
  JsMap.delete k (update_entry i g m) = update_entry i g (JsMap.delete k m).
Proof.
  induction m as [|[k' v] r IH]; simpl; auto.
  destruct (i =? k') eqn:Ei, (k =? k') eqn:Ek; simpl; rewrite ?Ei, ?Ek; auto.
  - apply Z.eqb_eq in Ei, Ek. subst.
    symmetry. apply update_entry_absent, get_delete_same.
  - now rewrite IH.
Qed.

(** X5. The three writes that spare the id counter commute, on equal ids
    as on different ones: counting a view, counting a download and deleting
    a record reach the same state in either order. *)
Theorem X5_writes_commute :
  forall (st : MemStorage) (i j : Z),
    snd (incrementViews i (snd (incrementViews j st))) =
      snd (incrementViews j (snd (incrementViews i st))) /\
    snd (incrementDownloads i (snd (incrementDownloads j st))) =
      snd (incrementDownloads j (snd (incrementDownloads i st))) /\
    snd (incrementViews i (snd (incrementDownloads j st))) =
      snd (incrementDownloads j (snd (incrementViews i st))) /\
    snd (deleteFile i (snd (incrementViews j st))) =
      snd (incrementViews j (snd (deleteFile i st))) /\
    snd (deleteFile i (snd (incrementDownloads j st))) =
      snd (incrementDownloads j (snd (deleteFile i st))) /\
    snd (deleteFile i (snd (deleteFile j st))) =
      snd (deleteFile j (snd (deleteFile i st))).
Proof.
  intros st i j.
  rewrite !incrementViews_update, !incrementDownloads_update. simpl.
  repeat split.
  - f_equal. now apply update_entry_comm.
  - f_equal. now apply update_entry_comm.
  - f_equal. now apply update_entry_comm.
  - f_equal. apply delete_update_entry.
  - f_equal. apply delete_update_entry.
  - f_equal. induction (files st) as [|[k v] r IH]; simpl; auto.
    destruct (i =? k) eqn:Ei, (j =? k) eqn:Ej; simpl; rewrite ?Ei, ?Ej; auto.
    now rewrite IH.
Qed.

(** * The request handlers *)

Lemma entry_by_shareId_values s (m : JsMap.t File.t) :
  option_map snd (entry_by_shareId s m) =
  array_find (fun file => String.eqb (File.shareId file) s) (JsMap.values m).
Proof.
  unfold entry_by_shareId, array_find.
  induction m as [|[k f] r IH]; simpl; auto.
  destruct (String.eqb (File.shareId f) s); auto.
Qed.

Lemma entry_by_shareId_lookup s st :
  option_map snd (entry_by_shareId s (files st)) = fst (getFileByShareId s st).
Proof. apply entry_by_shareId_values. Qed.

Lemma entry_by_shareId_key s st k f :
  invariant st ->
  entry_by_shareId s (files st) = Some (k, f) ->
  k = File.id f /\ JsMap.get k (files st) = Some f.
Proof.
  intros Hinv H. apply find_some in H as [Hin _].
  destruct Hinv as [Hnd Hall]. rewrite Forall_forall in Hall.
  destruct (Hall _ Hin) as [Hid _]. simpl in Hid.
  split; [now symmetry | now apply In_get].
Qed.

Lemma entry_by_shareId_set s k f (m : JsMap.t File.t) :
  File.shareId f = s ->
  Forall (fun g => File.shareId g <> s) (JsMap.values m) ->
  entry_by_shareId s (JsMap.set k f m) = Some (k, f).
Proof.
  intros Hf. unfold entry_by_shareId.
  induction m as [|[k' g] r IH]; simpl; intros Hall.
  - rewrite Hf, String.eqb_refl. reflexivity.
  - inversion Hall as [|? ? Hg Hr]; subst. simpl in Hg.
    destruct (k =? k'); simpl.
    + now rewrite String.eqb_refl.
    + apply String.eqb_neq in Hg. rewrite Hg. now apply IH.
Qed.

Lemma server_eta srv : mkServer (storage srv) (uploads srv) = srv.
Proof. now destruct srv. Qed.

Lemma existsSync_In name dir : existsSync name dir = true <-> In name dir.
Proof.
  unfold existsSync. rewrite existsb_exists. split.
  - intros (n & Hin & E). apply String.eqb_eq in E. now subst.
  - intros Hin. exists name. split; auto. apply String.eqb_refl.
Qed.

Lemma In_unlinkSync name n dir :
  In n (unlinkSync name dir) <-> In n dir /\ n <> name.
Proof.
  unfold unlinkSync. rewrite filter_In. split.
  - intros [Hin E]. split; auto. apply negb_true_iff, String.eqb_neq in E. congruence.
  - intros [Hin E]. split; auto. apply negb_true_iff, String.eqb_neq. congruence.
Qed.

Lemma unlinkSync_absent name dir :
  existsSync name dir = false -> unlinkSync name dir = dir.
Proof.
  unfold existsSync, unlinkSync. induction dir as [|n r IH]; simpl; auto.
  destruct (String.eqb name n); simpl; [discriminate|].
  intros H. now rewrite IH.
Qed.

Lemma get_file_found srv s k file :
  invariant (storage srv) ->
  entry_by_shareId s (files (storage srv)) = Some (k, file) ->
  get_file s srv =
  (mkResponse 200 (JsonFile (with_views file (File.views file + 1))),
   mkServer (snd (incrementViews (File.id file) (storage srv))) (uploads srv)).
Proof.
  intros Hinv He. destruct (entry_by_shareId_key _ _ _ _ Hinv He) as [-> Hget].
  unfold get_file. rewrite He.
  destruct (incrementViews (File.id file) (storage srv)) as [u st'] eqn:Ei.
  simpl. f_equal. f_equal. f_equal.
  assert (Hst : st' = snd (incrementViews (File.id file) (storage srv)))
    by now rewrite Ei.
  unfold object_now. rewrite Hst.
  unfold incrementViews, bind, this_files. rewrite Hget. simpl.
  now rewrite get_set_same.
Qed.

(** X6. [GET /api/files/:shareId].  On a reachable store: when no live
    record has the share id the answer is 404 and nothing changes.
    Otherwise the answer is 200 and carries the first record with that
    share id with its [views] already raised by 1 (the handler sends the
    object that [incrementViews] has just updated); the store holds that
    same record, [totalViews] of [getStats] is larger by 1, and the uploads
    directory is untouched. *)
Theorem X6_view_counts_then_answers :
  forall (srv : Server) (s : string),
    reachable (storage srv) ->
    match fst (getFileByShareId s (storage srv)) with
    | None =>
        get_file s srv = (mkResponse 404 (JsonMessage "File not found"), srv)
    | Some file =>
        let seen := with_views file (File.views file + 1) in
        let srv' := snd (get_file s srv) in
        fst (get_file s srv) = mkResponse 200 (JsonFile seen) /\
        JsMap.get (File.id file) (files (storage srv')) = Some seen /\
        totalViews (fst (getStats (storage srv'))) =
          totalViews (fst (getStats (storage srv))) + 1 /\
        uploads srv' = uploads srv
    end.
Proof.
  intros srv s Hr. apply reachable_invariant in Hr.
  rewrite <- entry_by_shareId_lookup.
  destruct (entry_by_shareId s (files (storage srv))) as [[k file]|] eqn:He;
    cbn [option_map snd]; cbv zeta.
  - destruct (entry_by_shareId_key _ _ _ _ Hr He) as [-> Hget].
    rewrite (get_file_found srv s _ file Hr He). cbn [fst snd storage uploads].
    split; [reflexivity|]. split; [|split; [|reflexivity]].
    + unfold incrementViews, bind, this_files. rewrite Hget. simpl.
      apply get_set_same.
    + now rewrite (getStats_incrementViews _ _ _ Hget).
  - unfold get_file. now rewrite He.
Qed.

(** X7. [GET /api/download/:shareId] on a reachable store.  An answer of
    404 (no live record with the share id, or its file not in the uploads
    directory) leaves the server as it was.  Otherwise the file of the first
    record with that share id is in the uploads directory and the download
    is counted before the headers are set: the [downloads] of that record
    and [totalDownloads] of [getStats] grow by 1 and the directory is left
    alone.  The answer is then 200, sending the file under the record's
    [originalName] and [mimeType], when both are acceptable header values,
    and 500 with the download still counted when one of them is not. *)
Theorem X7_download_counts_before_answering :
  forall (srv : Server) (s : string),
    reachable (storage srv) ->
    let r := fst (get_download s srv) in
    let srv' := snd (get_download s srv) in
    (status r = 404 /\ srv' = srv) \/
    (exists file,
        fst (getFileByShareId s (storage srv)) = Some file /\
        In (File.filename file) (uploads srv) /\
        r = (if header_value_ok (File.originalName file)
                && header_value_ok (File.mimeType file)
             then mkResponse 200
                    (SentFile (File.filename file) (download_headers file))
             else mkResponse 500 (JsonMessage "Failed to download file")) /\
        JsMap.get (File.id file) (files (storage srv')) =
          Some (with_downloads file (File.downloads file + 1)) /\
        totalDownloads (fst (getStats (storage srv'))) =
          totalDownloads (fst (getStats (storage srv))) + 1 /\
        uploads srv' = uploads srv).
Proof.
  intros srv s Hr. apply reachable_invariant in Hr. cbv zeta.
  pose proof (entry_by_shareId_lookup s (storage srv)) as Hl.
  unfold get_download.
  destruct (entry_by_shareId s (files (storage srv))) as [[k file]|] eqn:He.
  - destruct (entry_by_shareId_key _ _ _ _ Hr He) as [-> Hget].
    destruct (existsSync (File.filename file) (uploads srv)) eqn:Ex.
    + right. exists file.
      destruct (incrementDownloads (File.id file) (storage srv)) as [u st'] eqn:Ei.
      assert (Hst : st' = snd (incrementDownloads (File.id file) (storage srv)))
        by now rewrite Ei.
      cbn [option_map snd] in Hl.
      split; [now symmetry|]. split; [now apply existsSync_In|].
      destruct (header_value_ok (File.originalName file)
                && header_value_ok (File.mimeType file));
        cbn [fst snd storage uploads]; (split; [reflexivity|]); rewrite Hst;
        (split; [|split; [|reflexivity]]);
        try (unfold incrementDownloads, bind, this_files; rewrite Hget; simpl;
             apply get_set_same);
        now rewrite (getStats_incrementDownloads _ _ _ Hget).
    + left. now split.
  - left. now split.
Qed.

Lemma values_update_entry {B : Type} (h : File.t -> B) k g (m : JsMap.t File.t) :
  (forall v, h (g v) = h v) ->
  map h (JsMap.values (update_entry k g m)) = map h (JsMap.values m).
Proof.
  intros Hg. induction m as [|[k' v] r IH]; simpl; auto.
  destruct (k =? k'); simpl; [now rewrite Hg | now rewrite IH].
Qed.

Lemma live_incrementViews {B : Type} (h : File.t -> B) id st :
  (forall f v, h (with_views f v) = h f) ->
  map h (live (snd (incrementViews id st))) = map h (live st).
Proof.
  intros Hh. rewrite incrementViews_update. unfold live. simpl.
  apply values_update_entry. intros v. apply Hh.
Qed.

Lemma live_incrementDownloads {B : Type} (h : File.t -> B) id st :
  (forall f v, h (with_downloads f v) = h f) ->
  map h (live (snd (incrementDownloads id st))) = map h (live st).
Proof.
  intros Hh. rewrite incrementDownloads_update. unfold live. simpl.
  apply values_update_entry. intros v. apply Hh.
Qed.

Lemma snd_incrementViews_split id st :
  incrementViews id st = (tt, snd (incrementViews id st)).
Proof. destruct (incrementViews id st) as [[] st']. reflexivity. Qed.

Lemma snd_incrementDownloads_split id st :
  incrementDownloads id st = (tt, snd (incrementDownloads id st)).
Proof. destruct (incrementDownloads id st) as [[] st']. reflexivity. Qed.

(** The next state of each handler, case by case. *)
Lemma get_file_state s srv :
  snd (get_file s srv) = srv \/
  exists id, snd (get_file s srv) =
             mkServer (snd (incrementViews id (storage srv))) (uploads srv).
Proof.
  unfold get_file.
  destruct (entry_by_shareId s (files (storage srv))) as [[k file]|]; [|now left].
  right. exists (File.id file). now rewrite snd_incrementViews_split.
Qed.

Lemma get_download_state s srv :
  snd (get_download s srv) = srv \/
  exists id, snd (get_download s srv) =
             mkServer (snd (incrementDownloads id (storage srv))) (uploads srv).
Proof.
  unfold get_download.
  destruct (entry_by_shareId s (files (storage srv))) as [[k file]|]; [|now left].
  destruct (existsSync _ _); [|now left].
  right. exists (File.id file). rewrite snd_incrementDownloads_split.
  now destruct (header_value_ok (File.originalName file)
                && header_value_ok (File.mimeType file)).
Qed.

Lemma get_preview_state s srv : snd (get_preview s srv) = srv.
Proof.
  unfold get_preview.
  destruct (entry_by_shareId s (files (storage srv))) as [[k file]|]; auto.
  destruct (existsSync _ _); auto.
  now destruct (header_value_ok (File.mimeType file)).
Qed.

Lemma get_files_state srv : snd (get_files srv) = srv.
Proof. unfold get_files. simpl. apply server_eta. Qed.

Lemma get_admin_stats_state srv : snd (get_admin_stats srv) = srv.
Proof. unfold get_admin_stats. simpl. apply server_eta. Qed.

Lemma currentId_incrementViews id st :
  currentId (snd (incrementViews id st)) = currentId st.
Proof. now rewrite incrementViews_update. Qed.

Lemma currentId_incrementDownloads id st :
  currentId (snd (incrementDownloads id st)) = currentId st.
Proof. now rewrite incrementDownloads_update. Qed.

(** X8. A request that is neither an upload nor an admin delete changes
    nothing but counters: after it the uploads directory and the id counter
    are the same, and the live records are the same ones in the same order
    up to their [views] and [downloads]. *)
Theorem X8_get_requests_only_count :
  forall (accepts : InsertFile.t -> bool) (r : request) (srv : Server),
    is_get r = true ->
    let srv' := snd (serve accepts r srv) in
    uploads srv' = uploads srv /\
    currentId (storage srv') = currentId (storage srv) /\
    map strip_counters (live (storage srv')) = map strip_counters (live (storage srv)).
Proof.
  intros accepts r srv Hr. cbv zeta.
  destruct r; try discriminate Hr; simpl serve.
  - rewrite get_files_state. auto.
  - destruct (get_file_state shareId srv) as [-> | [id ->]]; auto.
    simpl. split; auto. split; [apply currentId_incrementViews|].
    apply live_incrementViews. reflexivity.
  - destruct (get_download_state shareId srv) as [-> | [id ->]]; auto.
    simpl. split; auto. split; [apply currentId_incrementDownloads|].
    apply live_incrementDownloads. reflexivity.
  - rewrite get_preview_state. auto.
  - rewrite get_admin_stats_state. auto.
Qed.

Lemma X8_witness :
  let srv := snd (serve (fun _ => true)
                        (PostUpload 1000 "abc123"
                           (Some (MulterFile.mk "f1.png" "photo.png" "image/png" 2048)))
                        (new_Server [])) in
  let srv' := snd (serve (fun _ => true) (GetFile "abc123") srv) in
  uploads srv' = ["f1.png"%string] /\
  currentId (storage srv') = 2 /\
  map strip_counters (live (storage srv')) = [stored_photo 1 "abc123" 1000 0 0] /\
  live (storage srv') = [stored_photo 1 "abc123" 1000 1 0].
Proof.
  cbv zeta.
  destruct (X8_get_requests_only_count (fun _ => true) (GetFile "abc123")
              (snd (serve (fun _ => true)
                      (PostUpload 1000 "abc123"
                         (Some (MulterFile.mk "f1.png" "photo.png" "image/png" 2048)))
                      (new_Server []))) eq_refl) as (H1 & H2 & H3).
  split; [exact H1|]. split; [exact H2|]. split; [exact H3 | reflexivity].
Defined.

Lemma find_by_unique_id (l : list File.t) f :
  NoDup (map File.id l) -> In f l ->
  array_find (fun g => File.id g =? File.id f) l = Some f.
Proof.
  unfold array_find. induction l as [|g r IH]; simpl; [tauto|].
  intros Hnd Hin. inversion Hnd as [|? ? Hnotin Hnd']; subst.
  destruct Hin as [->|Hin].
  - now rewrite Z.eqb_refl.
  - destruct (File.id g =? File.id f) eqn:E.
    + apply Z.eqb_eq in E. exfalso. apply Hnotin. rewrite E. now apply in_map.
    + auto.
Qed.

Lemma find_by_absent_id (l : list File.t) i :
  ~ In i (map File.id l) -> array_find (fun g => File.id g =? i) l = None.
Proof.
  intros H. unfold array_find. apply find_none. apply Forall_forall.
  intros g Hg. apply Z.eqb_neq. intros E. apply H. rewrite <- E. now apply in_map.
Qed.

(** Looking a record up by id in the list of [getAllFiles] agrees with the
    map. *)
Lemma find_in_getAllFiles st i :
  invariant st ->
  array_find (fun g => File.id g =? i) (fst (getAllFiles st)) = JsMap.get i (files st).
Proof.
  intros Hinv.
  assert (Hp : Permutation (live st) (fst (getAllFiles st)))
    by apply array_sort_perm.
  assert (Hnd : NoDup (map File.id (fst (getAllFiles st)))).
  { eapply Permutation_NoDup; [apply Permutation_map, Hp|].
    rewrite (live_ids_are_keys st Hinv). apply Hinv. }
  destruct (JsMap.get i (files st)) as [f|] eqn:E.
  - destruct (invariant_get _ _ _ Hinv E) as [Hid _]. rewrite <- Hid.
    apply find_by_unique_id; auto.
    eapply Permutation_in; [exact Hp|]. eapply In_live; eauto.
  - apply find_by_absent_id. intros Hin.
    apply (Permutation_in _ (Permutation_sym (Permutation_map File.id Hp))) in Hin.
    rewrite (live_ids_are_keys st Hinv) in Hin.
    now apply get_None_keys in E.
Qed.

Lemma delete_admin_file_found srv i f :
  invariant (storage srv) ->
  JsMap.get i (files (storage srv)) = Some f ->
  delete_admin_file (Some i) srv =
  (mkResponse 200 JsonSuccess,
   mkServer (snd (deleteFile i (storage srv)))
            (unlinkSync (File.filename f) (uploads srv))).
Proof.
  intros Hinv Hget. unfold delete_admin_file.
  pose proof (find_in_getAllFiles _ i Hinv) as Hf. rewrite Hget in Hf.
  change (getAllFiles (storage srv))
    with (fst (getAllFiles (storage srv)), storage srv).
  cbv iota beta. rewrite Hf. cbn [deleteFile files_delete snd].
  destruct (existsSync (File.filename f) (uploads srv)) eqn:Ex; auto.
  now rewrite (unlinkSync_absent _ _ Ex).
Qed.

Lemma delete_admin_file_missing srv id :
  invariant (storage srv) ->
  match id with
  | Some i => JsMap.get i (files (storage srv)) = None
  | None => True
  end ->
  delete_admin_file id srv = (mkResponse 200 JsonSuccess, srv).
Proof.
  intros Hinv Hid. unfold delete_admin_file.
  change (getAllFiles (storage srv))
    with (fst (getAllFiles (storage srv)), storage srv).
  cbv iota beta. destruct id as [i|].
  - rewrite (find_in_getAllFiles _ i Hinv), Hid. now rewrite server_eta.
  - now rewrite server_eta.
Qed.

(** X9. [DELETE /api/admin/files/:id] answers 200 with [success] whatever
    the id.  On a reachable store, when the id is live the record is
    deleted from the store and its file is gone from the uploads directory;
    when the id is not live, or the path parameter is not a number, the
    server is left as it was.  Deleting twice is the same as deleting
    once. *)
Theorem X9_admin_delete :
  forall (srv : Server) (id : option Z),
    reachable (storage srv) ->
    let srv' := snd (delete_admin_file id srv) in
    fst (delete_admin_file id srv) = mkResponse 200 JsonSuccess /\
    match id with
    | Some i =>
        match JsMap.get i (files (storage srv)) with
        | Some f =>
            storage srv' = snd (deleteFile i (storage srv)) /\
            uploads srv' = unlinkSync (File.filename f) (uploads srv) /\
            JsMap.get i (files (storage srv')) = None /\
            ~ In (File.filename f) (uploads srv')
        | None => srv' = srv
        end
    | None => srv' = srv
    end /\
    delete_admin_file id srv' = (mkResponse 200 JsonSuccess, srv').
Proof.
  intros srv id Hr. cbv zeta. apply reachable_invariant in Hr.
  destruct id as [i|].
  - destruct (JsMap.get i (files (storage srv))) as [f|] eqn:E.
    + rewrite (delete_admin_file_found srv i f Hr E). cbn [fst snd storage uploads].
      split; [reflexivity|]. split.
      * split; [reflexivity|]. split; [reflexivity|].
        split; [apply get_delete_same|].
        intros Hin. apply In_unlinkSync in Hin. tauto.
      * apply delete_admin_file_missing.
        -- cbn [storage]. now apply invariant_deleteFile.
        -- cbn [storage]. apply get_delete_same.
    + rewrite (delete_admin_file_missing srv (Some i) Hr E). cbn [fst snd].
      split; [reflexivity|]. split; [reflexivity|].
      now apply delete_admin_file_missing.
  - rewrite (delete_admin_file_missing srv None Hr I). cbn [fst snd].
    split; [reflexivity|]. split; [reflexivity|].
    now apply delete_admin_file_missing.
Qed.

(** ** Uploads *)

(** X10. Upload, then fetch.  When the schema accepts the draft and no live
    record carries the new share id, [POST /api/upload] answers 200 with a
    record that has the id counter's value as id, the fields multer
    reported, the share id, the upload time and two zero counters; a
    following [GET /api/files/:shareId] answers 200 with that record and
    [views] 1; and a following [GET /api/download/:shareId] answers 200 and
    sends the stored file under the original name when the original name
    and the MIME type are acceptable header values, and 500 when they are
    not. *)
Theorem X10_upload_then_fetch :
  forall (accepts : InsertFile.t -> bool) (srv : Server)
         (now : Z) (s : string) (f : MulterFile.t),
    accepts (draft_of f s) = true ->
    Forall (fun g => File.shareId g <> s) (live (storage srv)) ->
    let up := serve accepts (PostUpload now s (Some f)) srv in
    let file := File.mk (currentId (storage srv))
                        (MulterFile.filename f) (MulterFile.originalname f)
                        (MulterFile.mimetype f) (MulterFile.size f) s now 0 0 in
    fst up = mkResponse 200 (JsonFile file) /\
    fst (serve accepts (GetFile s) (snd up)) =
      mkResponse 200 (JsonFile (with_views file 1)) /\
    fst (serve accepts (GetDownload s) (snd up)) =
      (if header_value_ok (MulterFile.originalname f)
          && header_value_ok (MulterFile.mimetype f)
       then mkResponse 200
              (SentFile (MulterFile.filename f) (download_headers file))
       else mkResponse 500 (JsonMessage "Failed to download file")).
Proof.
  intros accepts srv now s f Hacc Hfree. cbv zeta.
  unfold serve, post_upload. fold (draft_of f s). rewrite Hacc.
  cbn [createFile bind post_incr_currentId files_set ret fst snd storage uploads
       currentId files draft_of InsertFile.filename InsertFile.originalName
       InsertFile.mimeType InsertFile.size InsertFile.shareId].
  set (file := File.mk (currentId (storage srv)) _ _ _ _ s now 0 0).
  assert (He : entry_by_shareId s (JsMap.set (currentId (storage srv)) file
                                             (files (storage srv))) =
               Some (currentId (storage srv), file))
    by (apply entry_by_shareId_set; [reflexivity | exact Hfree]).
  split; [reflexivity|]. split.
  - unfold get_file. cbn [storage files uploads]. rewrite He.
    rewrite snd_incrementViews_split. cbn [fst snd]. f_equal. f_equal.
    unfold object_now, incrementViews, bind, this_files. cbn [files fst snd].
    change (File.id file) with (currentId (storage srv)).
    rewrite get_set_same. cbn [files_set snd files]. now rewrite get_set_same.
  - unfold get_download. cbn [storage files uploads]. rewrite He.
    change (File.filename file) with (MulterFile.filename f).
    unfold existsSync. cbn [existsb]. rewrite String.eqb_refl. cbn [orb].
    rewrite snd_incrementDownloads_split.
    change (File.originalName file) with (MulterFile.originalname f).
    change (File.mimeType file) with (MulterFile.mimetype f).
    now destruct (header_value_ok (MulterFile.originalname f)
                  && header_value_ok (MulterFile.mimetype f)).
Qed.

Lemma X10_witness :
  let f := MulterFile.mk "f1.png" "photo.png" "image/png" 2048 in
  let g := MulterFile.mk "f3.png" "фото.png" "image/png" 2048 in
  let up := serve (fun _ => true) (PostUpload 1000 "abc123" (Some f)) (new_Server []) in
  let up' := serve (fun _ => true) (PostUpload 1000 "abc123" (Some g)) (new_Server []) in
  fst up = mkResponse 200 (JsonFile (stored_photo 1 "abc123" 1000 0 0)) /\
  fst (serve (fun _ => true) (GetFile "abc123") (snd up)) =
    mkResponse 200 (JsonFile (stored_photo 1 "abc123" 1000 1 0)) /\
  fst (serve (fun _ => true) (GetDownload "abc123") (snd up)) =
    mkResponse 200
      (SentFile "f1.png" (download_headers (stored_photo 1 "abc123" 1000 0 0))) /\
  status (fst up') = 200 /\
  fst (serve (fun _ => true) (GetDownload "abc123") (snd up')) =
    mkResponse 500 (JsonMessage "Failed to download file").
Proof.
  cbv zeta.
  destruct (X10_upload_then_fetch (fun _ => true) (new_Server []) 1000 "abc123"
              (MulterFile.mk "f1.png" "photo.png" "image/png" 2048)
              eq_refl (Forall_nil _)) as (H1 & H2 & H3).
  destruct (X10_upload_then_fetch (fun _ => true) (new_Server []) 1000 "abc123"
              (MulterFile.mk "f3.png" "фото.png" "image/png" 2048)
              eq_refl (Forall_nil _)) as (G1 & _ & G3).
  split; [exact H1|]. split; [exact H2|]. split; [exact H3|].
  split; [reflexivity | exact G3].
Defined.

(** X11. An upload either adds one record or adds none.  Without a file the
    answer is 400 and the server is unchanged.  With a file that the schema
    rejects the answer is 500, the store is unchanged, and the file multer
    stored stays in the uploads directory.  With a file that the schema
    accepts, on a reachable store, the answer is 200, the new record is
    appended to the live records, and the id counter grows by 1. *)
Theorem X11_upload_outcomes :
  forall (accepts : InsertFile.t -> bool) (srv : Server)
         (now : Z) (s : string) (req_file : option MulterFile.t),
    reachable (storage srv) ->
    let r := fst (serve accepts (PostUpload now s req_file) srv) in
    let srv' := snd (serve accepts (PostUpload now s req_file) srv) in
    match req_file with
    | None => status r = 400 /\ srv' = srv
    | Some f =>
        uploads srv' = MulterFile.filename f :: uploads srv /\
        if accepts (draft_of f s) then
          status r = 200 /\
          live (storage srv') =
            live (storage srv) ++ [fst (createFile now (draft_of f s) (storage srv))] /\
          currentId (storage srv') = currentId (storage srv) + 1
        else status r = 500 /\ storage srv' = storage srv
    end.
Proof.
  intros accepts srv now s req_file Hr. cbv zeta. apply reachable_invariant in Hr.
  destruct req_file as [f|]; unfold serve, post_upload.
  - fold (draft_of f s). destruct (accepts (draft_of f s)).
    + change (createFile now (draft_of f s) (storage (mkServer (storage srv)
                (MulterFile.filename f :: uploads srv))))
        with (fst (createFile now (draft_of f s) (storage srv)),
              snd (createFile now (draft_of f s) (storage srv))).
      cbn [fst snd storage uploads status].
      split; [reflexivity|]. split; [reflexivity|].
      split; [now apply live_createFile | reflexivity].
    + cbn [fst snd storage uploads status]. auto.
  - cbn [fst snd status]. split; [reflexivity | apply server_eta].
Qed.

Lemma X11_witness :
  let srv := new_Server ["old.txt"%string] in
  let f := MulterFile.mk "f1.png" "photo.png" "image/png" 2048 in
  let srv' := snd (serve (fun _ => false) (PostUpload 1000 "abc123" (Some f)) srv) in
  reachable (storage srv) /\
  uploads srv' = ["f1.png"; "old.txt"]%string /\
  status (fst (serve (fun _ => false) (PostUpload 1000 "abc123" (Some f)) srv)) = 500 /\
  storage srv' = storage srv.
Proof.
  cbv zeta. split; [exact reachable_new|].
  exact (X11_upload_outcomes (fun _ => false) (new_Server ["old.txt"%string])
           1000 "abc123"
           (Some (MulterFile.mk "f1.png" "photo.png" "image/png" 2048))
           reachable_new).
Defined.

(** ** Records and their files *)

Lemma blobs_present_map srv :
  blobs_present srv <->
  Forall (fun n => In n (uploads srv)) (map File.filename (live (storage srv))).
Proof. unfold blobs_present. now rewrite Forall_map. Qed.

Lemma NoDup_map_filter {A B : Type} (h : A -> B) (p : A -> bool) (l : list A) :
  NoDup (map h l) -> NoDup (map h (filter p l)).
Proof.
  induction l as [|x r IH]; simpl; auto.
  intros Hnd. inversion Hnd as [|? ? Hnotin Hnd']; subst.
  destruct (p x); simpl; auto. constructor; auto.
  intros Hin. apply Hnotin. apply in_map_iff in Hin as (y & Hy & Hin).
  apply filter_In in Hin as [Hin _]. rewrite <- Hy. now apply in_map.
Qed.

Lemma NoDup_map_injective {A B : Type} (h : A -> B) (l : list A) a b :
  NoDup (map h l) -> In a l -> In b l -> h a = h b -> a = b.
Proof.
  induction l as [|x r IH]; simpl; [tauto|].
  intros Hnd Ha Hb E. inversion Hnd as [|? ? Hnotin Hnd']; subst.
  destruct Ha as [->|Ha], Hb as [->|Hb]; auto.
  - exfalso. apply Hnotin. rewrite E. now apply in_map.
  - exfalso. apply Hnotin. rewrite <- E. now apply in_map.
Qed.

Lemma serve_keeps_blobs accepts r srv :
  invariant (storage srv) -> blobs_present srv -> blobs_distinct srv ->
  match r with
  | PostUpload _ _ (Some f) =>
      ~ In (MulterFile.filename f) (map File.filename (live (storage srv)))
  | _ => True
  end ->
  invariant (storage (snd (serve accepts r srv))) /\
  blobs_present (snd (serve accepts r srv)) /\
  blobs_distinct (snd (serve accepts r srv)).
Proof.
  intros Hinv Hp Hd Hfresh. destruct r; simpl serve.
  - now rewrite get_files_state.
  - destruct req_file as [f|]; unfold post_upload.
    + fold (draft_of f shareId). destruct (accepts (draft_of f shareId)).
      * change (createFile now (draft_of f shareId) (storage (mkServer (storage srv)
                  (MulterFile.filename f :: uploads srv))))
          with (fst (createFile now (draft_of f shareId) (storage srv)),
                snd (createFile now (draft_of f shareId) (storage srv))).
        cbn [fst snd]. unfold blobs_present, blobs_distinct. cbn [storage uploads].
        rewrite (live_createFile now (draft_of f shareId) _ Hinv).
        split; [now apply invariant_createFile|]. split.
        -- apply Forall_app. split.
           ++ eapply Forall_impl; [|exact Hp]. intros g Hg. now right.
           ++ constructor; [now left | constructor].
        -- rewrite map_app. simpl.
           apply NoDup_app_remove_l with (l := []). simpl.
           eapply Permutation_NoDup; [apply Permutation_cons_append|].
           constructor; assumption.
      * cbn [snd]. split; [exact Hinv|]. split; [|exact Hd].
        unfold blobs_present. cbn [storage uploads].
        eapply Forall_impl; [|exact Hp]. intros g Hg. now right.
    + cbn [snd]. now rewrite server_eta.
  - destruct (get_file_state shareId srv) as [-> | [id ->]]; auto.
    split; [now apply invariant_incrementViews|].
    split; [apply blobs_present_map | unfold blobs_distinct]; cbn [storage uploads];
      rewrite (live_incrementViews File.filename) by reflexivity;
      [now apply blobs_present_map | exact Hd].
  - destruct (get_download_state shareId srv) as [-> | [id ->]]; auto.
    split; [now apply invariant_incrementDownloads|].
    split; [apply blobs_present_map | unfold blobs_distinct]; cbn [storage uploads];
      rewrite (live_incrementDownloads File.filename) by reflexivity;
      [now apply blobs_present_map | exact Hd].
  - now rewrite get_preview_state.
  - now rewrite get_admin_stats_state.
  - assert (Hmiss : forall o,
               match o with
               | Some i => JsMap.get i (files (storage srv)) = None
               | None => True
               end ->
               invariant (storage (snd (delete_admin_file o srv))) /\
               blobs_present (snd (delete_admin_file o srv)) /\
               blobs_distinct (snd (delete_admin_file o srv))).
    { intros o Ho. now rewrite (delete_admin_file_missing srv o Hinv Ho). }
    destruct id as [i|]; [|now apply Hmiss].
    destruct (JsMap.get i (files (storage srv))) as [f|] eqn:E; [|now apply Hmiss].
    rewrite (delete_admin_file_found srv i f Hinv E). cbn [snd].
    unfold blobs_present, blobs_distinct. cbn [storage uploads].
    rewrite (live_deleteFile i _ Hinv).
    split; [now apply invariant_deleteFile|]. split.
    + apply Forall_forall. intros g Hg. apply filter_In in Hg as [Hin Hne].
      apply negb_true_iff, Z.eqb_neq in Hne.
      apply In_unlinkSync. split.
      * unfold blobs_present in Hp. rewrite Forall_forall in Hp. now apply Hp.
      * intros Hname. apply Hne.
        destruct (invariant_get _ _ _ Hinv E) as [Hid _]. rewrite <- Hid.
        f_equal. apply (NoDup_map_injective File.filename (live (storage srv))); auto.
        eapply In_live; eauto.
    + now apply NoDup_map_filter.
Qed.

Lemma serve_all_cons accepts r rs srv :
  snd (serve_all accepts (r :: rs) srv) =
  snd (serve_all accepts rs (snd (serve accepts r srv))).
Proof.
  simpl. destruct (serve accepts r srv) as [x srv1]. simpl.
  now destruct (serve_all accepts rs srv1).
Qed.

Lemma serve_all_keeps_blobs accepts rs : forall srv,
  invariant (storage srv) -> blobs_present srv -> blobs_distinct srv ->
  fresh_names accepts rs srv ->
  invariant (storage (snd (serve_all accepts rs srv))) /\
  blobs_present (snd (serve_all accepts rs srv)) /\
  blobs_distinct (snd (serve_all accepts rs srv)).
Proof.
  induction rs as [|r rest IH]; intros srv Hinv Hp Hd Hfresh.
  - simpl. auto.
  - rewrite serve_all_cons. destruct Hfresh as [Hr Hrest].
    destruct (serve_keeps_blobs accepts r srv Hinv Hp Hd) as (H1 & H2 & H3).
    + destruct r; auto.
    + now apply IH.
Qed.

(** X12. No record without its file.  Start the server on any uploads
    directory and serve any run of requests in which every upload brings a
    file name that no live record uses at that moment.  Then every live
    record has its file in the uploads directory and no two live records
    name the same file; so a download answers 404 exactly when no live
    record has the requested share id ("File not found on disk" is never
    the answer), and otherwise 200 or, when the record's original name or
    MIME type is no acceptable header value, 500. *)
Theorem X12_live_records_have_files :
  forall (accepts : InsertFile.t -> bool) (dir : list string) (rs : list request),
    fresh_names accepts rs (new_Server dir) ->
    let srv := snd (serve_all accepts rs (new_Server dir)) in
    blobs_present srv /\
    blobs_distinct srv /\
    forall s,
      status (fst (get_download s srv)) =
      match fst (getFileByShareId s (storage srv)) with
      | Some file =>
          if header_value_ok (File.originalName file)
             && header_value_ok (File.mimeType file)
          then 200 else 500
      | None => 404
      end.
Proof.
  intros accepts dir rs Hfresh srv.
  destruct (serve_all_keeps_blobs accepts rs (new_Server dir)) as (Hinv & Hp & Hd);
    auto.
  - apply invariant_new.
  - constructor.
  - constructor.
  - fold srv in Hinv, Hp, Hd. split; [exact Hp|]. split; [exact Hd|].
    intros s. rewrite <- entry_by_shareId_lookup. unfold get_download.
    destruct (entry_by_shareId s (files (storage srv))) as [[k file]|] eqn:He;
      cbn [option_map snd]; [|reflexivity].
    destruct (entry_by_shareId_key _ _ _ _ Hinv He) as [_ Hget].
    assert (Hex : existsSync (File.filename file) (uploads srv) = true).
    { apply existsSync_In. unfold blobs_present in Hp. rewrite Forall_forall in Hp.
      apply Hp. eapply In_live; eauto. }
    rewrite Hex, snd_incrementDownloads_split.
    now destruct (header_value_ok (File.originalName file)
                  && header_value_ok (File.mimeType file)).
Qed.

Lemma X12_witness :
  let rs := [PostUpload 1000 "abc123"
               (Some (MulterFile.mk "f1.png" "photo.png" "image/png" 2048));
             GetFile "abc123";
             PostUpload 2000 "xyz789"
               (Some (MulterFile.mk "f2.pdf" "notes.pdf" "application/pdf" 512));
             DeleteAdminFile (Some 1);
             GetDownload "xyz789"] in
  let srv := snd (serve_all (fun _ => true) rs (new_Server [])) in
  fresh_names (fun _ => true) rs (new_Server []) /\
  uploads srv = ["f2.pdf"%string] /\
  blobs_present srv /\
  status (fst (get_download "xyz789" srv)) = 200 /\
  status (fst (get_download "abc123" srv)) = 404.
Proof.
  cbv zeta.
  assert (Hf : fresh_names (fun _ => true)
                 [PostUpload 1000 "abc123"
                    (Some (MulterFile.mk "f1.png" "photo.png" "image/png" 2048));
                  GetFile "abc123";
                  PostUpload 2000 "xyz789"
                    (Some (MulterFile.mk "f2.pdf" "notes.pdf" "application/pdf" 512));
                  DeleteAdminFile (Some 1);
                  GetDownload "xyz789"] (new_Server [])).
  { simpl. repeat split; auto. intros [H|[]]. discriminate H. }
  split; [exact Hf|]. split; [reflexivity|].
  destruct (X12_live_records_have_files (fun _ => true) [] _ Hf) as (Hp & _ & Hs).
  split; [exact Hp|]. split; [exact (Hs "xyz789"%string)|].
  exact (Hs "abc123"%string).
Defined.

(** * The client's file utilities *)

Lemma includes_app l l' x : includes (l ++ l') x = includes l x || includes l' x.
Proof. unfold includes. apply existsb_app. Qed.

Lemma includes_allSupportedTypes x :
  includes allSupportedTypes x =
  includes IMAGES x || includes DOCUMENTS x || includes ARCHIVES x
  || includes VIDEOS x || includes AUDIO x.
Proof.
  unfold allSupportedTypes. rewrite !includes_app.
  now rewrite !orb_assoc.
Qed.

(** X13. [getFileIcon], [getFileCategory] and the type check of
    [validateFile] agree on which MIME types are known: a type gets the
    category "Other" exactly when it gets the folder icon, and exactly when
    it is none of the supported types; so a file that [validateFile]
    accepts never shows as "Other". *)
Theorem X13_icon_category_support_agree :
  forall (mimeType : string),
    (getFileCategory mimeType = "Other"%string <->
     includes allSupportedTypes mimeType = false) /\
    (getFileIcon mimeType = "📁"%string <->
     includes allSupportedTypes mimeType = false) /\
    (forall limit_text size,
        isValid (validateFile limit_text size mimeType) = true ->
        getFileCategory mimeType <> "Other"%string /\
        getFileIcon mimeType <> "📁"%string).
Proof.
  intros m.
  assert (Hc : getFileCategory m = "Other"%string <->
               includes allSupportedTypes m = false).
  { rewrite includes_allSupportedTypes. unfold getFileCategory.
    destruct (includes IMAGES m), (includes DOCUMENTS m), (includes ARCHIVES m),
             (includes VIDEOS m), (includes AUDIO m); simpl;
      split; intros H; try reflexivity; discriminate H. }
  assert (Hi : getFileIcon m = "📁"%string <->
               includes allSupportedTypes m = false).
  { rewrite includes_allSupportedTypes. unfold getFileIcon.
    destruct (includes IMAGES m), (includes DOCUMENTS m), (includes ARCHIVES m),
             (includes VIDEOS m), (includes AUDIO m); simpl;
      split; intros H; try reflexivity; discriminate H. }
  split; [exact Hc|]. split; [exact Hi|].
  intros limit_text size Hv. unfold validateFile in Hv.
  destruct (size >? MAX_SIZE); [discriminate Hv|].
  destruct (includes allSupportedTypes m) eqn:E; [|discriminate Hv].
  split; intros H; [apply Hc in H | apply Hi in H]; discriminate H.
Qed.

(** X14. [validateFile] accepts a file exactly when its size is at most
    104857600 bytes and its type is one of the supported types; it reports
    an error exactly when it does not accept; and for a file over the limit
    the error is the one about the size, whatever the type. *)
Theorem X14_validateFile_verdict :
  forall (limit_text : string) (size : Z) (type : string),
    let v := validateFile limit_text size type in
    isValid v = (size <=? 104857600) && includes allSupportedTypes type /\
    (isValid v = true <-> error v = None) /\
    (104857600 < size ->
     error v = Some ("File size exceeds " ++ limit_text ++ " limit")%string).
Proof.
  intros limit_text size type. cbv zeta. unfold validateFile.
  change MAX_SIZE with 104857600.
  destruct (size >? 104857600) eqn:E.
  - apply Z.gtb_lt in E. assert (L : (size <=? 104857600) = false)
      by (apply Z.leb_gt; lia).
    rewrite L. simpl. repeat split; auto; discriminate.
  - assert (L : (size <=? 104857600) = true).
    { apply Z.leb_le. destruct (Z.gtb_spec size 104857600); [discriminate | lia]. }
    rewrite L. destruct (includes allSupportedTypes type); simpl.
    + repeat split; auto. intros H. apply Z.leb_le in L. lia.
    + repeat split; auto; try discriminate. intros H. apply Z.leb_le in L. lia.
Qed.

(** X15. Whatever [isPreviewable] accepts is a supported type, of category
    "Image" or "Document". *)
Theorem X15_previewable_is_supported :
  forall (mimeType : string),
    isPreviewable mimeType = true ->
    includes allSupportedTypes mimeType = true /\
    (getFileCategory mimeType = "Image"%string \/
     getFileCategory mimeType = "Document"%string).
Proof.
  intros m H. unfold isPreviewable in H.
  rewrite includes_allSupportedTypes. unfold getFileCategory.
  destruct (includes IMAGES m) eqn:Ei; [simpl; auto|].
  simpl in H. apply orb_true_iff in H as [H|H]; apply String.eqb_eq in H; subst m;
    split; auto.
Qed.

Lemma X15_witness :
  includes allSupportedTypes "text/plain" = true /\
  (getFileCategory "text/plain" = "Image"%string \/
   getFileCategory "text/plain" = "Document"%string).
Proof. exact (X15_previewable_is_supported "text/plain" eq_refl). Defined.

Lemma X13_witness :
  getFileCategory "image/png" <> "Other"%string /\
  getFileIcon "image/png" <> "📁"%string.
Proof.
  exact (proj2 (proj2 (X13_icon_category_support_agree "image/png"))
               "100 MB"%string 2048 eq_refl).
Defined.

Lemma X14_witness :
  104857600 < 104857601 /\
  error (validateFile "100 MB" 104857601 "image/png") =
  Some "File size exceeds 100 MB limit"%string.
Proof.
  assert (H : 104857600 < 104857601) by lia.
  split; [exact H|].
  exact (proj2 (proj2 (X14_validateFile_verdict "100 MB" 104857601 "image/png")) H).
Defined.

(** ** [sanitizeFilename] *)

Ltac each_char c :=
  destruct c as [[] [] [] [] [] [] [] []]; try reflexivity; try discriminate.

Lemma safe_replacement c : is_safe_char (if is_safe_char c then c else "_"%char) = true.
Proof. destruct (is_safe_char c) eqn:E; [exact E | reflexivity]. Qed.

Lemma lower_char_plain c : is_safe_char c = true -> is_plain_char (lower_char c) = true.
Proof. each_char c. Qed.

Lemma lower_char_underscore c : is_underscore (lower_char c) = is_underscore c.
Proof. each_char c. Qed.

Lemma lower_char_fixed c : is_plain_char c = true -> lower_char c = c.
Proof. each_char c. Qed.

Lemma plain_is_safe c : is_plain_char c = true -> is_safe_char c = true.
Proof. unfold is_plain_char. now intros H%andb_prop. Qed.

Lemma replace_unsafe_safe s : string_forall is_safe_char (replace_unsafe s) = true.
Proof.
  induction s as [|c r IH]; simpl; auto. now rewrite safe_replacement, IH.
Qed.

Lemma starts_collapse s :
  starts_with_underscore (collapse_underscores s) = starts_with_underscore s.
Proof.
  induction s as [|c r IH]; simpl; auto.
  destruct (is_underscore c) eqn:Ec; simpl; auto.
  destruct (starts_with_underscore r) eqn:Er; simpl; auto.
Qed.

Lemma collapse_forall p s :
  string_forall p s = true -> string_forall p (collapse_underscores s) = true.
Proof.
  induction s as [|c r IH]; simpl; auto.
  intros H. apply andb_prop in H as [Hc Hr].
  destruct (is_underscore c && starts_with_underscore r); simpl; auto.
  now rewrite Hc, IH.
Qed.

Lemma collapse_no_double s : no_double_underscore (collapse_underscores s) = true.
Proof.
  induction s as [|c r IH]; simpl; auto.
  destruct (is_underscore c && starts_with_underscore r) eqn:E; simpl; auto.
  now rewrite starts_collapse, E, IH.
Qed.

Lemma collapse_length s :
  (String.length (collapse_underscores s) <= String.length s)%nat.
Proof.
  induction s as [|c r IH]; simpl; auto.
  destruct (is_underscore c && starts_with_underscore r); simpl; lia.
Qed.

Lemma collapse_fixed s : no_double_underscore s = true -> collapse_underscores s = s.
Proof.
  induction s as [|c r IH]; simpl; auto.
  intros H. apply andb_prop in H as [Hc Hr].
  apply negb_true_iff in Hc. rewrite Hc. now rewrite IH.
Qed.

Lemma starts_lower s : starts_with_underscore (lower_ascii s) = starts_with_underscore s.
Proof. destruct s; simpl; auto. apply lower_char_underscore. Qed.

Lemma lower_plain s :
  string_forall is_safe_char s = true ->
  string_forall is_plain_char (lower_ascii s) = true.
Proof.
  induction s as [|c r IH]; simpl; auto.
  intros H. apply andb_prop in H as [Hc Hr].
  now rewrite lower_char_plain, IH.
Qed.

Lemma lower_no_double s :
  no_double_underscore (lower_ascii s) = no_double_underscore s.
Proof.
  induction s as [|c r IH]; simpl; auto.
  now rewrite lower_char_underscore, starts_lower, IH.
Qed.

Lemma lower_length s : String.length (lower_ascii s) = String.length s.
Proof. induction s; simpl; auto. Qed.

Lemma replace_unsafe_length s : String.length (replace_unsafe s) = String.length s.
Proof. induction s; simpl; auto. Qed.

Lemma replace_unsafe_fixed s :
  string_forall is_plain_char s = true -> replace_unsafe s = s.
Proof.
  induction s as [|c r IH]; simpl; auto.
  intros H. apply andb_prop in H as [Hc Hr].
  now rewrite (plain_is_safe c Hc), IH.
Qed.

Lemma lower_fixed s : string_forall is_plain_char s = true -> lower_ascii s = s.
Proof.
  induction s as [|c r IH]; simpl; auto.
  intros H. apply andb_prop in H as [Hc Hr].
  now rewrite (lower_char_fixed c Hc), IH.
Qed.

Lemma sanitizeFilename_fixed s :
  string_forall is_plain_char s = true ->
  no_double_underscore s = true ->
  sanitizeFilename s = s.
Proof.
  intros Hp Hn. unfold sanitizeFilename.
  now rewrite (replace_unsafe_fixed s Hp), (collapse_fixed s Hn), (lower_fixed s Hp).
Qed.

(** X16. The result of [sanitizeFilename] consists of the characters
    [a-z], [0-9], ".", "_" and "-" only, never has two underscores in a
    row, and is not longer than the argument; the function leaves such
    names as they are, so sanitising twice is the same as sanitising
    once. *)
Theorem X16_sanitizeFilename_safe :
  forall (filename : string),
    let name := sanitizeFilename filename in
    string_forall is_plain_char name = true /\
    no_double_underscore name = true /\
    (String.length name <= String.length filename)%nat /\
    sanitizeFilename name = name.
Proof.
  intros s. cbv zeta.
  assert (Hp : string_forall is_plain_char (sanitizeFilename s) = true).
  { unfold sanitizeFilename. apply lower_plain, collapse_forall, replace_unsafe_safe. }
  assert (Hn : no_double_underscore (sanitizeFilename s) = true).
  { unfold sanitizeFilename. rewrite lower_no_double. apply collapse_no_double. }
  split; [exact Hp|]. split; [exact Hn|]. split.
  - unfold sanitizeFilename. rewrite lower_length.
    rewrite <- (replace_unsafe_length s). apply collapse_length.
  - now apply sanitizeFilename_fixed.
Qed.

(** X17. A name made of the characters [a-z], [0-9], ".", "_" and "-"
    without two underscores in a row is returned unchanged by
    [sanitizeFilename]. *)
Theorem X17_sanitizeFilename_keeps_safe_names :
  forall (filename : string),
    string_forall is_plain_char filename = true ->
    no_double_underscore filename = true ->
    sanitizeFilename filename = filename.
Proof. exact sanitizeFilename_fixed. Qed.

Lemma X17_witness : sanitizeFilename "my_file-2.tar.gz" = "my_file-2.tar.gz"%string.
Proof.
  exact (X17_sanitizeFilename_keeps_safe_names "my_file-2.tar.gz" eq_refl eq_refl).
Defined.

Example sanitizeFilename_sample :
  sanitizeFilename "My  Report (final).PDF" = "my_report_final_.pdf"%string.
Proof. reflexivity. Qed.

(** * The home page *)

Lemma StronglySorted_app_cross {A : Type} (R : A -> A -> Prop) (l1 l2 : list A) :
  StronglySorted R (l1 ++ l2) ->
  forall a b, In a l1 -> In b l2 -> R a b.
Proof.
  induction l1 as [|x r IH]; simpl; [tauto|].
  intros Hs a b Ha Hb. inversion Hs as [|? ? Hs' Hall]; subst.
  destruct Ha as [->|Ha].
  - rewrite Forall_forall in Hall. apply Hall. apply in_or_app. now right.
  - now apply IH.
Qed.

(** X18. The "Recent Uploads" of the home page, the first six entries of
    what [GET /api/files] returns, are at most six live records, all of
    them when there are six or fewer, and every live record left out is no
    newer than every record shown. *)
Theorem X18_recent_uploads_are_newest :
  forall (st : MemStorage),
    let files := fst (getAllFiles st) in
    let shown := recentFiles files in
    List.length shown = Nat.min 6 (List.length (live st)) /\
    exists rest,
      files = shown ++ rest /\
      Permutation (live st) (shown ++ rest) /\
      forall s h, In s shown -> In h rest ->
                  File.uploadedAt h <= File.uploadedAt s.
Proof.
  intros st files shown. split.
  - unfold shown, recentFiles. rewrite length_firstn. unfold files.
    unfold getAllFiles, bind, this_files, ret. cbn [fst].
    rewrite array_sort_length. reflexivity.
  - exists (skipn 6 files).
    assert (E : files = shown ++ skipn 6 files)
      by (symmetry; apply firstn_skipn).
    split; [exact E|]. split.
    + rewrite <- E. apply array_sort_perm.
    + intros s h Hs Hh.
      apply (StronglySorted_app_cross newer_or_equal shown (skipn 6 files)); auto.
      rewrite <- E. apply array_sort_by_uploadedAt_sorted.
Qed.

(** * The admin dashboard *)

Lemma str_includes_empty s : str_includes s "" = true.
Proof. destruct s; reflexivity. Qed.

Lemma filter_and {A : Type} (p q : A -> bool) (l : list A) :
  filter (fun x => p x && q x) l = filter q (filter p l).
Proof.
  induction l as [|x r IH]; simpl; auto.
  destruct (p x); simpl; [destruct (q x)|]; now rewrite IH.
Qed.

(** X19. The dashboard's list.  With the type filter on "all" and a search
    term whose lower-case form is empty (the initial state of the page)
    every file is listed, in the order received.  A type filter only
    narrows the list the search alone gives: the result for a type is the
    result for "all" with the files of other types taken out.  A filter
    value other than the four the page offers lists nothing. *)
Theorem X19_dashboard_filter :
  forall (toLowerCase : string -> string) (files : list File.t),
    (forall searchTerm,
        toLowerCase searchTerm = ""%string ->
        filteredFiles toLowerCase files searchTerm "all" = files) /\
    (forall searchTerm filterType,
        filteredFiles toLowerCase files searchTerm filterType =
        filter (matchesType filterType)
               (filteredFiles toLowerCase files searchTerm "all")) /\
    (forall searchTerm filterType,
        filterType <> "all"%string -> filterType <> "images"%string ->
        filterType <> "documents"%string -> filterType <> "spreadsheets"%string ->
        filteredFiles toLowerCase files searchTerm filterType = []).
Proof.
  intros lower files.
  assert (Hall : forall s, filteredFiles lower files s "all" =
                           filter (matchesSearch lower s) files).
  { intros s. unfold filteredFiles. apply filter_ext. intros f.
    unfold matchesType. simpl. apply andb_true_r. }
  split; [|split].
  - intros s Hs. rewrite Hall. unfold matchesSearch. rewrite Hs. clear Hall.
    induction files as [|f r IH]; cbn [filter]; auto.
    now rewrite str_includes_empty, IH.
  - intros s ft. rewrite Hall. unfold filteredFiles. apply filter_and.
  - intros s ft H1 H2 H3 H4. unfold filteredFiles. clear Hall.
    apply String.eqb_neq in H1, H2, H3, H4.
    induction files as [|f r IH]; simpl; auto.
    unfold matchesType at 1. rewrite H1, H2, H3, H4. simpl.
    now rewrite andb_false_r.
Qed.

Lemma X19_witness :
  filteredFiles lower_ascii
    [stored_photo 2 "xyz789" 2000 0 0; stored_photo 1 "abc123" 1000 3 1] "" "all" =
    [stored_photo 2 "xyz789" 2000 0 0; stored_photo 1 "abc123" 1000 3 1] /\
  filteredFiles lower_ascii
    [stored_photo 2 "xyz789" 2000 0 0; stored_photo 1 "abc123" 1000 3 1]
    "PHOTO" "archives" = [].
Proof.
  split.
  - exact (proj1 (X19_dashboard_filter lower_ascii _) ""%string eq_refl).
  - apply (proj2 (proj2 (X19_dashboard_filter lower_ascii _))); discriminate.
Defined.

(** * The further properties at concrete runs *)

Lemma X1_witness :
  let st := exec_all [CreateFile 1000 (photo "abc123"); CreateFile 2000 (photo "xyz789");
                      DeleteFile 1; CreateFile 3000 (photo "abc123")] new_MemStorage in
  reachable st /\
  1 <= currentId st /\
  NoDup (map File.id (live st)) /\
  map File.id (live st) = [2; 3].
Proof.
  cbv zeta.
  assert (Hr : reachable (exec_all [CreateFile 1000 (photo "abc123");
                                    CreateFile 2000 (photo "xyz789");
                                    DeleteFile 1;
                                    CreateFile 3000 (photo "abc123")] new_MemStorage))
    by (eexists; reflexivity).
  destruct (X1_store_invariant _ Hr) as (H1 & H2 & _).
  split; [exact Hr|]. split; [exact H1|]. split; [exact H2 | reflexivity].
Defined.

Lemma X2_witness :
  let st := exec_all [CreateFile 1000 (photo "abc123")] new_MemStorage in
  let cs := [IncrementViews 1; CreateFile 2000 (photo "xyz789"); IncrementDownloads 1] in
  reachable st /\
  JsMap.get 1 (files (exec_all cs st)) = Some (stored_photo 1 "abc123" 1000 1 1) /\
  same_upload (stored_photo 1 "abc123" 1000 0 0) (stored_photo 1 "abc123" 1000 1 1).
Proof.
  cbv zeta.
  assert (Hr : reachable (exec_all [CreateFile 1000 (photo "abc123")] new_MemStorage))
    by (eexists; reflexivity).
  split; [exact Hr|]. split; [reflexivity|].
  exact (X2_upload_fields_immutable _
           [IncrementViews 1; CreateFile 2000 (photo "xyz789"); IncrementDownloads 1]
           1 _ _ Hr eq_refl eq_refl).
Defined.

Lemma X6_witness :
  let srv := mkServer (exec_all [CreateFile 1000 (photo "abc123"); IncrementViews 1]
                                new_MemStorage) ["f1.png"%string] in
  reachable (storage srv) /\
  fst (get_file "abc123" srv) =
    mkResponse 200 (JsonFile (stored_photo 1 "abc123" 1000 2 0)) /\
  get_file "nope" srv = (mkResponse 404 (JsonMessage "File not found"), srv).
Proof.
  cbv zeta.
  assert (Hr : reachable (storage (mkServer
                 (exec_all [CreateFile 1000 (photo "abc123"); IncrementViews 1]
                           new_MemStorage) ["f1.png"%string])))
    by (eexists; reflexivity).
  split; [exact Hr|]. split.
  - exact (proj1 (X6_view_counts_then_answers _ "abc123" Hr)).
  - exact (X6_view_counts_then_answers _ "nope" Hr).
Defined.

Lemma X7_witness :
  let st := exec_all [CreateFile 1000 (photo "abc123")] new_MemStorage in
  reachable st /\
  status (fst (get_download "abc123" (mkServer st []))) = 404 /\
  snd (get_download "abc123" (mkServer st [])) = mkServer st [] /\
  fst (get_download "abc123" (mkServer st ["f1.png"%string])) =
    mkResponse 200 (SentFile "f1.png"
                      (download_headers (stored_photo 1 "abc123" 1000 0 0))).
Proof.
  cbv zeta.
  assert (Hr : reachable (exec_all [CreateFile 1000 (photo "abc123")] new_MemStorage))
    by (eexists; reflexivity).
  split; [exact Hr|].
  destruct (X7_download_counts_before_answering
              (mkServer (exec_all [CreateFile 1000 (photo "abc123")] new_MemStorage) [])
              "abc123" Hr) as [[H1 H2] | (file & _ & H & _)].
  - split; [exact H1|]. split; [exact H2 | reflexivity].
  - destruct H.
Defined.

Lemma X9_witness :
  let srv := mkServer (exec_all [CreateFile 1000 (photo "abc123")] new_MemStorage)
                      ["f1.png"; "other.txt"]%string in
  reachable (storage srv) /\
  snd (delete_admin_file (Some 1) srv) =
    mkServer (mkMemStorage [] 2) ["other.txt"%string] /\
  fst (delete_admin_file None srv) = mkResponse 200 JsonSuccess.
Proof.
  cbv zeta.
  assert (Hr : reachable (storage (mkServer
                 (exec_all [CreateFile 1000 (photo "abc123")] new_MemStorage)
                 ["f1.png"; "other.txt"]%string)))
    by (eexists; reflexivity).
  split; [exact Hr|]. split; [reflexivity|].
  exact (proj1 (X9_admin_delete _ None Hr)).
Defined.

(** * Share ids that the caller keeps unique *)

Lemma find_by_unique_shareId (l : list File.t) f :
  NoDup (map File.shareId l) -> In f l ->
  array_find (fun g => String.eqb (File.shareId g) (File.shareId f)) l = Some f.
Proof.
  unfold array_find. induction l as [|g r IH]; simpl; [tauto|].
  intros Hnd Hin. inversion Hnd as [|? ? Hnotin Hnd']; subst.
  destruct Hin as [->|Hin].
  - now rewrite String.eqb_refl.
  - destruct (String.eqb (File.shareId g) (File.shareId f)) eqn:E.
    + apply String.eqb_eq in E. exfalso. apply Hnotin. rewrite E. now apply in_map.
    + auto.
Qed.

Lemma exec_keeps_shareIds_distinct c st :
  invariant st ->
  NoDup (map File.shareId (live st)) ->
  match c with
  | CreateFile _ d => ~ In (InsertFile.shareId d) (map File.shareId (live st))
  | _ => True
  end ->
  NoDup (map File.shareId (live (exec c st))).
Proof.
  intros Hinv Hnd Hfresh. destruct c.
  - rewrite exec_createFile, (live_createFile now insertFile st Hinv), map_app.
    simpl. apply NoDup_app_remove_l with (l := []). simpl.
    eapply Permutation_NoDup; [apply Permutation_cons_append|].
    constructor; assumption.
  - now rewrite (exec_read (GetFileByShareId shareId)).
  - now rewrite (exec_read GetAllFiles).
  - rewrite exec_incrementViews, (live_incrementViews File.shareId); auto.
  - rewrite exec_incrementDownloads, (live_incrementDownloads File.shareId); auto.
  - rewrite exec_deleteFile, (live_deleteFile id st Hinv).
    now apply NoDup_map_filter.
  - now rewrite (exec_read GetStats).
Qed.

Lemma exec_all_keeps_shareIds_distinct cs : forall st,
  invariant st ->
  NoDup (map File.shareId (live st)) ->
  fresh_shareIds cs st ->
  NoDup (map File.shareId (live (exec_all cs st))).
Proof.
  induction cs as [|c r IH]; intros st Hinv Hnd Hfresh.
  - exact Hnd.
  - rewrite exec_all_cons. destruct Hfresh as [Hc Hr]. apply IH; auto.
    + now apply invariant_exec.
    + apply exec_keeps_shareIds_distinct; auto.
Qed.

(** X20. When every [createFile] of a run on a fresh store brings a share
    id that no live record carries at that moment, the live records have
    pairwise distinct share ids; then [getFileByShareId] with the share id
    of a live record returns that very record, and returns [undefined] once
    the record has been deleted. *)
Theorem X20_unique_shareIds_are_kept :
  forall (cs : list call),
    fresh_shareIds cs new_MemStorage ->
    let st := exec_all cs new_MemStorage in
    NoDup (map File.shareId (live st)) /\
    forall f,
      In f (live st) ->
      fst (getFileByShareId (File.shareId f) st) = Some f /\
      fst (getFileByShareId (File.shareId f) (snd (deleteFile (File.id f) st))) = None.
Proof.
  intros cs Hfresh st.
  assert (Hinv : invariant st) by apply invariant_exec_all, invariant_new.
  assert (Hnd : NoDup (map File.shareId (live st))).
  { apply exec_all_keeps_shareIds_distinct; auto.
    - apply invariant_new.
    - constructor. }
  split; [exact Hnd|]. intros f Hin. split.
  - unfold getFileByShareId, bind, this_files, ret. cbn [fst].
    now apply find_by_unique_shareId.
  - unfold getFileByShareId, bind, this_files, ret. cbn [fst].
    change (JsMap.values (files (snd (deleteFile (File.id f) st))))
      with (live (snd (deleteFile (File.id f) st))).
    rewrite (live_deleteFile _ _ Hinv). apply find_none.
    apply Forall_forall. intros g Hg. apply filter_In in Hg as [Hg Hne].
    apply negb_true_iff, Z.eqb_neq in Hne. apply String.eqb_neq. intros E.
    apply Hne. f_equal.
    now apply (NoDup_map_injective File.shareId (live st)).
Qed.

Lemma X20_witness :
  let cs := [CreateFile 1000 (photo "abc123"); CreateFile 2000 (photo "xyz789");
             IncrementViews 1; DeleteFile 2; CreateFile 3000 (photo "xyz789")] in
  let st := exec_all cs new_MemStorage in
  fresh_shareIds cs new_MemStorage /\
  NoDup (map File.shareId (live st)) /\
  fst (getFileByShareId "xyz789" st) = Some (stored_photo 3 "xyz789" 3000 0 0) /\
  fst (getFileByShareId "xyz789" (snd (deleteFile 3 st))) = None.
Proof.
  cbv zeta.
  assert (Hf : fresh_shareIds
                 [CreateFile 1000 (photo "abc123"); CreateFile 2000 (photo "xyz789");
                  IncrementViews 1; DeleteFile 2; CreateFile 3000 (photo "xyz789")]
                 new_MemStorage).
  { simpl. repeat split; auto; intros H; repeat destruct H as [H|H];
      try discriminate H; exact H. }
  destruct (X20_unique_shareIds_are_kept _ Hf) as [Hnd Hl].
  split; [exact Hf|]. split; [exact Hnd|].
  exact (Hl (stored_photo 3 "xyz789" 3000 0 0) (or_intror (or_introl eq_refl))).
Defined.
